(** * The TypeScript SDK's execution bridge ([sdk/typescript/src/exec.ts])

    A shallow embedding of [CodexExec.run], [CodexExec.runHttp], [parseSse]
    and [parseUsage], and the properties of their event streams, of the
    per-thread history store and of the server-sent-event decoder. *)

From Stdlib Require Import ZArith NArith Ascii String DecimalString.
From stdpp Require Import base list gmap.

Set Warnings "-register-all".
Local Open Scope N_scope.

(** ** JavaScript strings and JSON values *)

(** A JavaScript string is a sequence of UTF-16 code units. *)
Abbreviation jsstring := (list N).

(** [u "lit"] is the string literal ["lit"] of the source. *)
Definition u (s : string) : jsstring :=
  map N_of_ascii (list_ascii_of_string s).

(** The decimal digits of an integer, with its sign. *)
Definition decimal (z : Z) : jsstring :=
  u (NilZero.string_of_int (Z.to_int z)).

(** The integers that every double represents exactly and that
    [Number::toString] prints digit by digit: those below [2^53] in
    magnitude. *)
Definition safe_integer (z : Z) : bool := (Z.abs z <? 2 ^ 53)%Z.

(** A JavaScript number as far as this code can tell: integral values
    exactly, every other double (fractions, NaN, the infinities) by its
    rendering. *)
Inductive number :=
  | Integer (z : Z)
  | NonInteger (repr : jsstring).

(** The result of [JSON.parse]. An object is the list of its own
    properties; a lookup takes the first binding of a key. *)
Inductive json :=
  | JNull
  | JBool (b : bool)
  | JNum (n : number)
  | JStr (s : jsstring)
  | JArr (items : list json)
  | JObj (props : list (jsstring * json)).

(** A JavaScript value that may be [undefined]. *)
Abbreviation jsvalue := (option json).

Definition str_eqb (a b : jsstring) : bool := bool_decide (a = b).

Fixpoint assoc (key : jsstring) (props : list (jsstring * json)) : jsvalue :=
  match props with
  | [] => None
  | (k, v) :: rest => if str_eqb k key then Some v else assoc key rest
  end.

(** [v?.key]: [undefined] on [null], [undefined] and on every value without
    that own property. None of the keys read by the source is a built-in
    property of a string, an array or a number. *)
Definition prop (key : string) (v : jsvalue) : jsvalue :=
  match v with
  | Some (JObj props) => assoc (u key) props
  | _ => None
  end.

(** [v?.[0]] *)
Definition index0 (v : jsvalue) : jsvalue :=
  match v with
  | Some (JArr (x :: _)) => Some x
  | Some (JObj props) => assoc (u "0") props
  | Some (JStr (c :: _)) => Some (JStr [c])
  | _ => None
  end.


Definition coalesce (v : jsvalue) (d : json) : json :=
  match v with
  | None | Some JNull => d
  | Some x => x
  end.

(** [v === "lit"] *)
Definition is_string (lit : string) (v : jsvalue) : bool :=
  match v with
  | Some (JStr s) => str_eqb s (u lit)
  | _ => false
  end.

(** Truthiness of a JSON value. *)
Definition truthy (v : json) : bool :=
  match v with
  | JNull => false
  | JBool b => b
  | JNum (Integer z) => negb (Z.eqb z 0)
  | JNum (NonInteger r) => negb (str_eqb r (u "NaN"))
  | JStr s => negb (str_eqb s [])
  | JArr _ | JObj _ => true
  end.

(** Truthiness of an optional string and of an optional boolean argument. *)
Definition given (s : option jsstring) : bool :=
  match s with
  | Some (_ :: _) => true
  | _ => false
  end.

Definition flag (b : option bool) : bool :=
  match b with
  | Some true => true
  | _ => false
  end.

Fixpoint join (sep : jsstring) (l : list jsstring) : jsstring :=
  match l with
  | [] => []
  | [x] => x
  | x :: rest => x ++ sep ++ join sep rest
  end.

(** ** String operations used by the decoder *)

Definition LF : N := 10.

(** [s.split("\n")] *)
Fixpoint split_lines (s : jsstring) : list jsstring :=
  match s with
  | [] => [[]]
  | c :: rest =>
      if N.eqb c LF then [] :: split_lines rest
      else match split_lines rest with
           | p :: ps => (c :: p) :: ps
           | [] => [[c]]
           end
  end.

(** Puts [c] in front of the first part. *)
Definition cons_first (c : N) (parts : list jsstring) : list jsstring :=
  match parts with
  | p :: ps => (c :: p) :: ps
  | [] => [[c]]
  end.

(** [s.split("\n\n")]: the separator is matched from the left, without
    overlap. *)
Fixpoint split_blank (s : jsstring) : list jsstring :=
  match s with
  | [] => [[]]
  | c :: rest =>
      if N.eqb c LF then
        match rest with
        | c' :: rest' =>
            if N.eqb c' LF then [] :: split_blank rest'
            else cons_first c (split_blank rest)
        | [] => [[c]]
        end
      else cons_first c (split_blank rest)
  end.

(** [parts.pop()]: the array without its last element, and that element. *)
Fixpoint pop (parts : list jsstring) : list jsstring * option jsstring :=
  match parts with
  | [] => ([], None)
  | [x] => ([], Some x)
  | x :: rest => let '(init, last) := pop rest in (x :: init, last)
  end.

(** Whether [s] starts with the separator. *)
Definition at_blank (s : jsstring) : bool :=
  match s with
  | a :: b :: _ => N.eqb a LF && N.eqb b LF
  | _ => false
  end.

Definition attach (c : N) (r : list jsstring * jsstring) : list jsstring * jsstring :=
  match r with
  | ([], rem) => ([], c :: rem)
  | (p :: ps, rem) => ((c :: p) :: ps, rem)
  end.

(** The delimited segments of [s] and the undelimited remainder: what
    [split] followed by [pop] computes. *)
Fixpoint segments (s : jsstring) : list jsstring * jsstring :=
  match s with
  | [] => ([], [])
  | c :: rest =>
      if N.eqb c LF then
        match rest with
        | c' :: rest' =>
            if N.eqb c' LF then let '(ps, rem) := segments rest' in ([] :: ps, rem)
            else attach c (segments rest)
        | [] => ([], [c])
        end
      else attach c (segments rest)
  end.

(** [s.startsWith(p)] *)
Fixpoint startsWith (p s : jsstring) : bool :=
  match p, s with
  | [], _ => true
  | a :: p', b :: s' => N.eqb a b && startsWith p' s'
  | _ :: _, [] => false
  end.

(** WhiteSpace and LineTerminator code points, as [String.prototype.trim]
    strips them. *)
Definition is_space (c : N) : bool :=
  (9 <=? c) && (c <=? 13) || N.eqb c 32 || N.eqb c 160 || N.eqb c 5760
  || (8192 <=? c) && (c <=? 8202) || N.eqb c 8232 || N.eqb c 8233
  || N.eqb c 8239 || N.eqb c 8287 || N.eqb c 12288 || N.eqb c 65279.

Fixpoint trimStart (s : jsstring) : jsstring :=
  match s with
  | c :: rest => if is_space c then trimStart rest else s
  | [] => []
  end.

Definition trim (s : jsstring) : jsstring :=
  rev (trimStart (rev (trimStart s))).

(** The [data:] line of one segment:
    [part.split("\n").find(l => l.startsWith("data:"))?.slice(5).trim()] *)
Definition dataLine (part : jsstring) : option jsstring :=
  match List.find (startsWith (u "data:")) (split_lines part) with
  | Some line => Some (trim (drop 5 line))
  | None => None
  end.

(** ** The platform

    Built-ins of the JavaScript runtime that the source calls: the UTF-8
    [TextDecoder] in streaming mode, [JSON.parse] (a syntax error is
    [inr message]), the string case of [Number(...)], [Number::toString] of
    an integral double that is not a safe integer (the shortest digits that
    read back as the same double, in exponent form from [10^21] on),
    [Buffer.toString] and [path.join]. *)

Abbreviation bytes := (list Byte.byte).

Class Platform := {
  decoder_state : Type;
  decoder_init : decoder_state;
  decode : decoder_state -> bytes -> decoder_state * jsstring;
  JSON_parse : jsstring -> json + jsstring;
  StringToNumber : jsstring -> number;
  NumberToString : Z -> jsstring;
  Buffer_toString : bytes -> jsstring;
  path_join : jsstring -> jsstring -> jsstring
}.

Section Rendering.
Context `{Platform}.

(** [String(v)] / [`${v}`] of a JSON value. *)
Fixpoint ToString (v : json) : jsstring :=
  match v with
  | JNull => u "null"
  | JBool true => u "true"
  | JBool false => u "false"
  | JNum (Integer z) => if safe_integer z then decimal z else NumberToString z
  | JNum (NonInteger r) => r
  | JStr s => s
  | JArr items =>
      join (u ",")
        (map (fun x => match x with JNull => [] | _ => ToString x end) items)
  | JObj _ => u "[object Object]"
  end.

End Rendering.

(** What [decode(value, { stream: true })] guarantees: the text of a chunk
    sequence does not depend on where the chunks are cut. *)
Definition streaming `{Platform} : Prop :=
  (forall st, decode st [] = (st, [])) /\
  (forall st a b,
      decode st (a ++ b) =
      let '(st1, t1) := decode st a in
      let '(st2, t2) := decode st1 b in (st2, t1 ++ t2)).

(** ** Cancellation signals and response bodies *)

(** [aborted n] is the value of [signal.aborted] at the n-th place where the
    HTTP path looks at the signal: 0 on entry, 1 during the 20 ms grace
    wait, [2 + k] at the head of the k-th iteration of the read loop.
    [reason] is [String(signal.reason)] when the reason is not nullish. *)
Record AbortSignal := {
  reason : option jsstring;
  aborted : nat -> bool
}.

(** [String(signal.reason ?? "aborted")] *)
Definition abort_message (s : AbortSignal) : jsstring :=
  match reason s with
  | Some r => r
  | None => u "aborted"
  end.

(** [signal?.aborted] *)
Definition is_aborted (s : option AbortSignal) (n : nat) : bool :=
  match s with
  | Some sig => aborted sig n
  | None => false
  end.

(** One [reader.read()]: a chunk, or a rejection; the end of the list is
    [done]. *)
Inductive ReadResult :=
  | Chunk (value : bytes)
  | ReadRejected (err : jsstring).

(** ** [parseSse] *)

Section Decoder.
Context `{Platform}.

(** The inner [for (const part of parts)] loop: the events it yields and
    the error it throws, if any. *)
Fixpoint emit (parts : list jsstring) : list json * option jsstring :=
  match parts with
  | [] => ([], None)
  | part :: rest =>
      match dataLine part with
      | None | Some [] => emit rest
      | Some d =>
          match JSON_parse d with
          | inl ev => let '(evs, err) := emit rest in (ev :: evs, err)
          | inr e => ([], Some e)
          end
      end
  end.

(** The [while (true)] loop from its k-th iteration on, with the decoder
    state and the text buffer. *)
Fixpoint parseSse_from (signal : option AbortSignal) (k : nat)
    (dec : decoder_state) (buffer : jsstring) (reads : list ReadResult)
  : list json * option jsstring :=
  if is_aborted signal (2 + k) then
    ([], Some (match signal with Some s => abort_message s | None => [] end))
  else
    match reads with
    | [] => ([], None)
    | ReadRejected e :: _ => ([], Some e)
    | Chunk value :: rest =>
        let '(dec', text) := decode dec value in
        let parts := split_blank (buffer ++ text) in
        let '(parts', last) := pop parts in
        let buffer' := default [] last in
        match emit parts' with
        | (evs, Some e) => (evs, Some e)
        | (evs, None) =>
            let '(evs', err) := parseSse_from signal (S k) dec' buffer' rest in
            (evs ++ evs', err)
        end
    end.

Definition parseSse (body : list ReadResult) (signal : option AbortSignal)
  : list json * option jsstring :=
  parseSse_from signal 0 decoder_init [] body.

(** The text the decoder has produced over a sequence of chunks. *)
Fixpoint decode_all (dec : decoder_state) (chunks : list bytes) : jsstring :=
  match chunks with
  | [] => []
  | value :: rest => let '(dec', t) := decode dec value in t ++ decode_all dec' rest
  end.

Definition never_aborted (signal : option AbortSignal) : Prop :=
  forall n, is_aborted signal n = false.

(** ** [parseUsage] *)

Record Usage := {
  input_tokens : number;
  cached_input_tokens : number;
  output_tokens : number
}.

(** [Number(v)] of a JSON value. *)
Definition Number (v : json) : number :=
  match v with
  | JNum n => n
  | JNull => Integer 0
  | JBool true => Integer 1
  | JBool false => Integer 0
  | JStr s => StringToNumber s
  | JArr _ | JObj _ => StringToNumber (ToString v)
  end.

Definition zero : json := JNum (Integer 0).

Definition parseUsage (usage : jsvalue) : Usage :=
  let inputTokens := Number (coalesce (prop "input_tokens" usage) zero) in
  let cachedTokens :=
    Number (coalesce (prop "cached_tokens" (prop "input_tokens_details" usage)) zero) in
  let outputTokens := Number (coalesce (prop "output_tokens" usage) zero) in
  {| input_tokens := inputTokens;
     cached_input_tokens := cachedTokens;
     output_tokens := outputTokens |}.


End Decoder.

(** ** Conversation history *)

Inductive Role := user | assistant.

(** [text] is a string for a user message; for an assistant message it is
    whatever JSON value the upstream item carried. *)
Record ConversationMessage := {
  role : Role;
  text : json
}.

(** [CodexExec.histories]. No path of the source mutates a stored array in
    place: [map] and the spread build fresh arrays, and only the fresh
    [updatedHistory] is pushed to. *)
Abbreviation Histories := (gmap jsstring (list ConversationMessage)).

(** [this.histories.get(threadId) ?? []] *)
Definition get (h : Histories) (threadId : jsstring) : list ConversationMessage :=
  default [] (h !! threadId).

(** ** Events, requests and the outside world *)

Record ThreadItem := {
  item_id : jsstring;
  item_text : json
}.

Inductive ThreadEvent :=
  | thread_started (thread_id : jsstring)
  | turn_started
  | item_started (item : ThreadItem)
  | item_completed (item : ThreadItem)
  | turn_completed (usage : Usage)
  | turn_failed (message : jsstring).

(** What the generator hands to its consumer: [JSON.stringify] of an event
    on the HTTP path, a raw stdout line on the process path. *)
Inductive Yielded :=
  | stringify (e : ThreadEvent)
  | line (l : jsstring).

Record ContentPart := {
  part_type : jsstring;
  part_text : json
}.

Record InputEntry := {
  entry_role : Role;
  content : list ContentPart
}.

Record HttpRequest := {
  url : jsstring;
  authorization : option jsstring;
  body_input : list InputEntry;
  body_model : option jsstring;
  body_schema : option json;
  body_images : option (list jsstring);
  body_config : option (list (jsstring * json))
}.

(** [status] is an unsigned short, and the exit code of a child below a
    32-bit integer: safe integers, which a template literal prints digit by
    digit. *)
Record Response := {
  ok : bool;
  status : Z;
  response_text : option jsstring;
  body : option (list ReadResult)
}.

Inductive FetchResult :=
  | Resolved (r : Response)
  | Rejected (err : jsstring).

(** The child as [run] observes it.
    - [stdin]: whether [child.stdin] exists.
    - [stdinError]: the ["error"] event that stream emits after the write
      (an [EPIPE] when the child has closed its end), if any, with the
      number of stdout lines handed over before it is emitted. [run]
      registers no listener on [child.stdin].
    - [stdout]: the lines readline reads from [child.stdout], if it exists.
    - [stderr]: the chunks received on [child.stderr].
    - [spawnError]: the ["error"] event of the child.
    - [exitCode]: the code of its ["exit"] event ([None] is [null]).
    - [exitHeard]: whether ["exit"] is emitted after [run] has registered
      its listener, which it does when the last line has been handed over;
      an ["exit"] emitted earlier finds no listener and is lost. *)
Record ChildProcess := {
  stdin : bool;
  stdinError : option (nat * jsstring);
  stdout : option (list jsstring);
  stderr : option (list bytes);
  spawnError : option jsstring;
  exitCode : option Z;
  exitHeard : bool
}.

Abbreviation Env := (gmap jsstring jsstring).

Record World := {
  existsSync : jsstring -> bool;
  readFileSync : jsstring -> jsstring + jsstring;
  randomUUID : jsstring;
  process_env : Env;
  fetch : HttpRequest -> FetchResult;
  spawn : jsstring -> list jsstring -> Env -> ChildProcess
}.

Record CodexExecArgs := {
  input : jsstring;
  baseUrl : option jsstring;
  apiKey : option jsstring;
  threadId : option jsstring;
  images : option (list jsstring);
  model : option jsstring;
  sandboxMode : option jsstring;
  workingDirectory : option jsstring;
  additionalDirectories : option (list jsstring);
  skipGitRepoCheck : option bool;
  outputSchemaFile : option jsstring;
  modelReasoningEffort : option jsstring;
  signal : option AbortSignal;
  networkAccessEnabled : option bool;
  webSearchEnabled : option bool;
  approvalPolicy : option jsstring
}.

(** ** Async generators

    A generator body is a computation over the history store that emits a
    trace of actions and ends by returning, by throwing, by being
    abandoned, or without ever settling the pending [next()]: [pulls] is
    the number of [next()] calls the consumer still makes ([None]: it
    drains the stream); a body that is suspended at a [yield] when the
    pulls run out never runs further. *)

Inductive Action :=
  | AYield (y : Yielded)
  | AFetch (req : HttpRequest)
  | ASpawn (exe : jsstring) (argv : list jsstring) (env : Env)
  | AWrite (data : jsstring).

(** Why a pending [next()] is never settled: the body awaits a promise
    that nothing resolves or rejects, or an ["error"] event without a
    listener is thrown out of the event loop and ends the host process. *)
Inductive Fault :=
  | NeverSettles
  | Uncaught (err : jsstring).

Inductive Outcome (A : Type) :=
  | Returned (a : A)
  | Threw (err : jsstring)
  | Abandoned
  | Unsettled (f : Fault).
Arguments Returned {A} a.
Arguments Threw {A} err.
Arguments Abandoned {A}.
Arguments Unsettled {A} f.

Record Run (A : Type) := {
  outcome : Outcome A;
  store : Histories;
  pulls : option nat;
  trace : list Action
}.
Arguments outcome {A} r.
Arguments store {A} r.
Arguments pulls {A} r.
Arguments trace {A} r.

Definition Gen (A : Type) : Type := Histories -> option nat -> Run A.

Definition ret {A} (a : A) : Gen A :=
  fun h p => {| outcome := Returned a; store := h; pulls := p; trace := [] |}.

Definition throw {A} (err : jsstring) : Gen A :=
  fun h p => {| outcome := Threw err; store := h; pulls := p; trace := [] |}.

Definition unsettled {A} (f : Fault) : Gen A :=
  fun h p => {| outcome := Unsettled f; store := h; pulls := p; trace := [] |}.

Definition bind {A B} (m : Gen A) (k : A -> Gen B) : Gen B :=
  fun h p =>
    let r := m h p in
    match outcome r with
    | Returned a =>
        let r' := k a (store r) (pulls r) in
        {| outcome := outcome r'; store := store r'; pulls := pulls r';
           trace := trace r ++ trace r' |}
    | Threw e =>
        {| outcome := Threw e; store := store r; pulls := pulls r; trace := trace r |}
    | Abandoned =>
        {| outcome := Abandoned; store := store r; pulls := pulls r; trace := trace r |}
    | Unsettled f =>
        {| outcome := Unsettled f; store := store r; pulls := pulls r; trace := trace r |}
    end.

Notation "'let*' x ':=' m 'in' k" := (bind m (fun x => k))
  (at level 10, x name, m at level 100, k at level 200).
Notation "m '>>' k" := (bind m (fun _ => k))
  (at level 100, k at level 200, right associativity).

Definition act (a : Action) : Gen unit :=
  fun h p => {| outcome := Returned tt; store := h; pulls := p; trace := [a] |}.

(** The consumer calls [next()], or never does. *)
Definition resume : Gen unit :=
  fun h p =>
    match p with
    | None => {| outcome := Returned tt; store := h; pulls := None; trace := [] |}
    | Some (S n) => {| outcome := Returned tt; store := h; pulls := Some n; trace := [] |}
    | Some O => {| outcome := Abandoned; store := h; pulls := Some O; trace := [] |}
    end.

(** [yield v]: hand [v] over, then wait for the next [next()]. *)
Definition yield (y : Yielded) : Gen unit := act (AYield y) >> resume.

(** [this.histories.set(threadId, messages)] *)
Definition histories_set (threadId : jsstring) (messages : list ConversationMessage)
  : Gen unit :=
  fun h p =>
    {| outcome := Returned tt; store := <[threadId := messages]> h;
       pulls := p; trace := [] |}.

Definition histories_get (threadId : jsstring) : Gen (list ConversationMessage) :=
  fun h p => {| outcome := Returned (get h threadId); store := h; pulls := p; trace := [] |}.

Definition when (b : bool) (m : Gen unit) : Gen unit := if b then m else ret tt.

(** The events handed to the consumer, in order. *)
Fixpoint yields (t : list Action) : list Yielded :=
  match t with
  | [] => []
  | AYield y :: rest => y :: yields rest
  | _ :: rest => yields rest
  end.

(** ** [CodexExec] *)

Record CodexExec := {
  executablePath : jsstring;
  envOverride : option Env
}.

Definition INTERNAL_ORIGINATOR_ENV : jsstring := u "CODEX_INTERNAL_ORIGINATOR_OVERRIDE".
Definition TYPESCRIPT_SDK_ORIGINATOR : jsstring := u "codex_sdk_ts".

Definition quote : N := 34.

Definition bool_text (b : bool) : jsstring := if b then u "true" else u "false".

(** [if (opt) commandArgs.push(...)] for an optional string. *)
Definition push_if (opt : option jsstring) (f : jsstring -> list jsstring)
  : list jsstring :=
  match opt with
  | Some (c :: s) => f (c :: s)
  | _ => []
  end.

Definition push_each (opt : option (list jsstring)) (name : string) : list jsstring :=
  match opt with
  | Some l => flat_map (fun x => [u name; x]) l
  | None => []
  end.

Definition push_config (opt : option bool) (key : string) : list jsstring :=
  match opt with
  | Some b => [u "--config"; u key ++ bool_text b]
  | None => []
  end.

Definition commandArgs (args : CodexExecArgs) : list jsstring :=
  [u "exec"; u "--experimental-json"]
  ++ push_if (model args) (fun m => [u "--model"; m])
  ++ push_if (sandboxMode args) (fun m => [u "--sandbox"; m])
  ++ push_if (workingDirectory args) (fun d => [u "--cd"; d])
  ++ push_each (additionalDirectories args) "--add-dir"
  ++ (if flag (skipGitRepoCheck args) then [u "--skip-git-repo-check"] else [])
  ++ push_if (outputSchemaFile args) (fun f => [u "--output-schema"; f])
  ++ push_if (modelReasoningEffort args)
       (fun e => [u "--config"; u "model_reasoning_effort=" ++ [quote] ++ e ++ [quote]])
  ++ push_config (networkAccessEnabled args) "sandbox_workspace_write.network_access="
  ++ push_config (webSearchEnabled args) "features.web_search_request="
  ++ push_if (approvalPolicy args)
       (fun a => [u "--config"; u "approval_policy=" ++ [quote] ++ a ++ [quote]])
  ++ push_each (images args) "--image"
  ++ push_if (threadId args) (fun t => [u "resume"; t]).

Definition buildEnv (this : CodexExec) (w : World) (args : CodexExecArgs) : Env :=
  let env0 : Env :=
    match envOverride this with
    | Some o => o
    | None => process_env w
    end in
  let env1 : Env :=
    if given (env0 !! INTERNAL_ORIGINATOR_ENV) then env0
    else <[INTERNAL_ORIGINATOR_ENV := TYPESCRIPT_SDK_ORIGINATOR]> env0 in
  let env2 : Env :=
    match baseUrl args with
    | Some (c :: b) => <[u "OPENAI_BASE_URL" := c :: b]> env1
    | _ => env1
    end in
  match apiKey args with
  | Some (c :: k) => <[u "CODEX_API_KEY" := c :: k]> env2
  | _ => env2
  end.

(** *** The request of the HTTP path *)

Definition input_entry (entry : ConversationMessage) : InputEntry :=
  {| entry_role := role entry;
     content :=
       [{| part_type := match role entry with
                        | assistant => u "output_text"
                        | user => u "input_text"
                        end;
           part_text := text entry |}] |}.

Definition user_entry (input : jsstring) : InputEntry :=
  {| entry_role := user;
     content := [{| part_type := u "input_text"; part_text := JStr input |}] |}.

Definition request_input (history : list ConversationMessage) (args : CodexExecArgs)
  : list InputEntry :=
  map input_entry history ++ [user_entry (input args)].

Definition config_string (opt : option jsstring) (key : string)
  : list (jsstring * json) :=
  match opt with
  | Some (c :: s) => [(u key, JStr (c :: s))]
  | _ => []
  end.

Definition config_nested (opt : option bool) (key inner : string)
  : list (jsstring * json) :=
  match opt with
  | Some b => [(u key, JObj [(u inner, JBool b)])]
  | None => []
  end.

Definition request_config (args : CodexExecArgs) : list (jsstring * json) :=
  config_string (sandboxMode args) "sandbox"
  ++ config_string (modelReasoningEffort args) "model_reasoning_effort"
  ++ config_nested (networkAccessEnabled args) "sandbox_workspace_write" "network_access"
  ++ config_nested (webSearchEnabled args) "features" "web_search_request"
  ++ config_string (approvalPolicy args) "approval_policy"
  ++ match additionalDirectories args with
     | Some (d :: ds) => [(u "additional_directories", JArr (map JStr (d :: ds)))]
     | _ => []
     end
  ++ config_string (workingDirectory args) "working_directory".

Definition request (history : list ConversationMessage) (schema : jsvalue)
    (args : CodexExecArgs) : HttpRequest :=
  {| url := default (u "undefined") (baseUrl args) ++ u "/responses";
     authorization :=
       match apiKey args with
       | Some (c :: k) => Some (u "Bearer " ++ c :: k)
       | _ => None
       end;
     body_input := request_input history args;
     body_model := match model args with
                   | Some (c :: m) => Some (c :: m)
                   | _ => None
                   end;
     body_schema := match schema with
                    | Some v => if truthy v then Some v else None
                    | None => None
                    end;
     body_images := match images args with
                    | Some (i :: l) => Some (i :: l)
                    | _ => None
                    end;
     body_config := match request_config args with
                    | [] => None
                    | c => Some c
                    end |}.

(** *** The generators *)

Record LoopState := {
  updatedHistory : list ConversationMessage;
  assistantCount : nat;
  completed : bool;
  failed : bool
}.

Definition agent_message (count : nat) (v : json) : ThreadItem :=
  {| item_id := u "item_" ++ decimal (Z.of_nat count); item_text := v |}.

Definition TypeError (what : string) : jsstring :=
  u "Cannot read properties of " ++ u what ++ u " (reading 'type')".

Definition disconnected (why : jsstring) : ThreadEvent :=
  turn_failed (u "stream disconnected before completion: " ++ why).

(** [for (const v of vs) yield v] *)
Fixpoint yield_each (vs : list Yielded) : Gen unit :=
  match vs with
  | [] => ret tt
  | v :: rest => yield v >> yield_each rest
  end.

(** [event.error?.message ?? "stream disconnected before completion"] *)
Definition error_message (event : json) : json :=
  coalesce (prop "message" (prop "error" (Some event)))
           (JStr (u "stream disconnected before completion")).

(** [item?.content?.[0]?.text], or the empty string when that is nullish. *)
Definition item_text_of (item : jsvalue) : json :=
  coalesce (prop "text" (index0 (prop "content" item))) (JStr []).

Section Exec.
Context `{Platform}.

(** The guard on the item of an output-item event, present only when a
    signal was passed. *)
Definition item_guard (args : CodexExecArgs) (item : jsvalue) : Gen unit :=
  match signal args with
  | None => ret tt
  | Some sig =>
      match item with
      | None => throw (TypeError "undefined")
      | Some JNull => throw (TypeError "null")
      | Some _ =>
          if is_string "function_call" (prop "type" item)
          then throw (abort_message sig)
          else ret tt
      end
  end.

(** One iteration of [for await (const event of parseSse(...))], for an
    event that is not [null]. *)
Definition dispatch (args : CodexExecArgs) (event : json) (ls : LoopState)
  : Gen LoopState :=
  let type := prop "type" (Some event) in
  if is_string "response.output_item.done" type then
    let item := prop "item" (Some event) in
    let txt := item_text_of item in
    let updated := updatedHistory ls ++ [{| role := assistant; text := txt |}] in
    let threadItem := agent_message (assistantCount ls) txt in
    when (bool_decide (is_Some (signal args)))
      (yield (stringify (item_started threadItem))) >>
    item_guard args item >>
    yield (stringify (item_completed threadItem)) >>
    ret {| updatedHistory := updated;
           assistantCount := S (assistantCount ls);
           completed := completed ls;
           failed := failed ls |}
  else if is_string "response.completed" type then
    let usage := parseUsage (prop "usage" (prop "response" (Some event))) in
    yield (stringify (turn_completed usage)) >>
    ret {| updatedHistory := updatedHistory ls;
           assistantCount := assistantCount ls;
           completed := true;
           failed := failed ls |}
  else if is_string "error" type then
    let message := error_message event in
    yield (stringify (disconnected (ToString message))) >>
    ret {| updatedHistory := updatedHistory ls;
           assistantCount := assistantCount ls;
           completed := completed ls;
           failed := true |}
  else ret ls.

(** Reading [event.type] of a [null] event throws. *)
Definition handle (args : CodexExecArgs) (event : json) (ls : LoopState)
  : Gen LoopState :=
  match event with
  | JNull => throw (TypeError "null")
  | _ => dispatch args event ls
  end.

Fixpoint consume (args : CodexExecArgs) (events : list json) (ls : LoopState)
  : Gen LoopState :=
  match events with
  | [] => ret ls
  | event :: rest => let* ls' := handle args event ls in consume args rest ls'
  end.

(** The cancellation checks on entry: the signal is already aborted, or it
    fires during the grace wait. *)
Definition cancelled_on_entry (args : CodexExecArgs) : bool :=
  is_aborted (signal args) 0 || is_aborted (signal args) 1.

Definition preflight (args : CodexExecArgs) : Gen unit :=
  match signal args with
  | None => ret tt
  | Some sig =>
      if aborted sig 0 then throw (abort_message sig)
      else if aborted sig 1 then throw (abort_message sig)
      else ret tt
  end.

(** [args.threadId ?? `thread_${randomUUID()}`] *)
Definition resolve_thread (w : World) (args : CodexExecArgs) : jsstring :=
  match threadId args with
  | Some t => t
  | None => u "thread_" ++ randomUUID w
  end.

(** The output schema: [undefined] without a schema file that exists,
    otherwise [JSON.parse] of its contents; reading and parsing may throw. *)
Definition schema_of (w : World) (args : CodexExecArgs) : jsvalue + jsstring :=
  match outputSchemaFile args with
  | Some (c :: f) =>
      if existsSync w (c :: f) then
        match readFileSync w (c :: f) with
        | inl contents =>
            match JSON_parse contents with
            | inl v => inl (Some v)
            | inr e => inr e
            end
        | inr e => inr e
        end
      else inl None
  | _ => inl None
  end.

Definition load_schema (w : World) (args : CodexExecArgs) : Gen jsvalue :=
  match schema_of w args with
  | inl schema => ret schema
  | inr e => throw e
  end.

Definition await_fetch (w : World) (req : HttpRequest) : Gen Response :=
  act (AFetch req) >>
  match fetch w req with
  | Resolved r => ret r
  | Rejected e => throw e
  end.

Definition request_failed (r : Response) : ThreadEvent :=
  turn_failed
    (u "request failed with status " ++ decimal (status r) ++ u ": "
     ++ default (u "unexpected error while reading response body") (response_text r)).

Definition runHttp (w : World) (args : CodexExecArgs) : Gen unit :=
  preflight args >>
  let threadId := resolve_thread w args in
  let* history := histories_get threadId in
  let* schema := load_schema w args in
  let* response := await_fetch w (request history schema args) in
  let updated := history ++ [{| role := user; text := JStr (input args) |}] in
  yield (stringify (thread_started threadId)) >>
  yield (stringify turn_started) >>
  if negb (ok response) then
    yield (stringify (request_failed response))
  else
    match body response with
    | None => yield (stringify (disconnected (u "missing response body")))
    | Some reads =>
        let '(events, err) := parseSse reads (signal args) in
        let* ls :=
          consume args events
            {| updatedHistory := updated; assistantCount := 0%nat;
               completed := false; failed := false |} in
        match err with Some e => throw e | None => ret tt end >>
        when (negb (completed ls) && negb (failed ls))
          (yield (stringify (disconnected (u "missing completion event")))) >>
        when (completed ls) (histories_set threadId (updatedHistory ls))
    end.

(** [`Codex Exec exited with code ${code}: ${stderrBuffer.toString("utf8")}`] *)
Definition exit_message (code : option Z) (stderrChunks : list bytes) : jsstring :=
  u "Codex Exec exited with code "
  ++ match code with Some c => decimal c | None => u "null" end
  ++ u ": " ++ Buffer_toString (concat stderrChunks).

(** [for await (const line of rl) yield line]: the lines are handed over
    in order; an ["error"] event of [child.stdin] emitted before the last
    line is handed over ends the run there. *)
Definition read_lines (child : ChildProcess) (lines : list jsstring) : Gen unit :=
  match stdinError child with
  | Some (n, e) =>
      if (n <? length lines)%nat
      then yield_each (map line (take n lines)) >> unsettled (Uncaught e)
      else yield_each (map line lines)
  | None => yield_each (map line lines)
  end.

(** [await exitCode]: the promise is created, and its ["exit"] listener
    registered, after the loop over the lines; it settles only if the
    event is emitted after that, and before an ["error"] event of
    [child.stdin] that is still to come. *)
Definition await_exit (child : ChildProcess) : Gen unit :=
  match stdinError child with
  | Some (_, e) => unsettled (Uncaught e)
  | None =>
      if exitHeard child then
        match exitCode child with
        | Some 0%Z => ret tt
        | code => throw (exit_message code (default [] (stderr child)))
        end
      else unsettled NeverSettles
  end.

(** The process path of [run]. Closing the line reader and killing the
    child ([child.kill()] before the two early throws and in the [finally]
    block) touch neither the trace nor the store. *)
Definition runProcess (this : CodexExec) (w : World) (args : CodexExecArgs)
  : Gen unit :=
  let env := buildEnv this w args in
  let argv := commandArgs args in
  act (ASpawn (executablePath this) argv env) >>
  let child := spawn w (executablePath this) argv env in
  if negb (stdin child) then throw (u "Child process has no stdin")
  else
    act (AWrite (input args)) >>
    match stdout child with
    | None => throw (u "Child process has no stdout")
    | Some lines =>
        read_lines child lines >>
        match spawnError child with
        | Some e => throw e
        | None => await_exit child
        end
    end.

Definition trust_check (w : World) (args : CodexExecArgs) : Gen unit :=
  match workingDirectory args with
  | Some (c :: d) =>
      if negb (flag (skipGitRepoCheck args)) then
        let gitDir := path_join (c :: d) (u ".git") in
        if negb (existsSync w gitDir)
        then throw (u "Not inside a trusted directory")
        else ret tt
      else ret tt
  | _ => ret tt
  end.

(** Whether the trust check rejects the working directory. *)
Definition untrusted (w : World) (args : CodexExecArgs) : bool :=
  match workingDirectory args with
  | Some (c :: d) =>
      negb (flag (skipGitRepoCheck args))
      && negb (existsSync w (path_join (c :: d) (u ".git")))
  | _ => false
  end.

Definition run (this : CodexExec) (w : World) (args : CodexExecArgs) : Gen unit :=
  resume >>
  trust_check w args >>
  if given (baseUrl args) then runHttp w args
  else runProcess this w args.

(** *** What a turn exchanges and commits *)

(** The response to the request of a turn, when the request is issued and
    answered. *)
Definition exchange (w : World) (args : CodexExecArgs) (h : Histories)
  : option Response :=
  match schema_of w args with
  | inl schema =>
      match fetch w (request (get h (resolve_thread w args)) schema args) with
      | Resolved r => Some r
      | Rejected _ => None
      end
  | inr _ => None
  end.

(** The events decoded from the body of that response. *)
Definition decoded (w : World) (args : CodexExecArgs) (h : Histories) : list json :=
  match exchange w args h with
  | Some r =>
      match body r with
      | Some reads => (parseSse reads (signal args)).1
      | None => []
      end
  | None => []
  end.

(** One assistant message per output-item event. *)
Definition assistant_messages (events : list json) : list ConversationMessage :=
  omap (fun event =>
          if is_string "response.output_item.done" (prop "type" (Some event))
          then Some {| role := assistant;
                       text := item_text_of (prop "item" (Some event)) |}
          else None) events.

(** The history that a completed turn stores for its thread. *)
Definition committed (w : World) (args : CodexExecArgs) (h : Histories)
  : list ConversationMessage :=
  get h (resolve_thread w args)
  ++ {| role := user; text := JStr (input args) |}
  :: assistant_messages (decoded w args h).

End Exec.





(** What remains of the pulls after one more [next()]. *)
Definition next (p : option nat) : option nat :=
  match p with
  | None => None
  | Some n => Some (pred n)
  end.

(** [y] is handed over before the response to the request has arrived. *)
Definition before_response (y : Yielded) (t : list Action) : Prop :=
  exists pre mid req post, t = pre ++ AYield y :: mid ++ AFetch req :: post.

(** [sub] occurs in [s]. *)
Definition contains (sub s : jsstring) : Prop :=
  exists pre post, s = pre ++ sub ++ post.



Definition is_completion (a : Action) : bool :=
  match a with
  | AYield (stringify (turn_completed _)) => true
  | _ => false
  end.

(** Whether a [turn.completed] event was handed to the consumer. *)
Definition has_completed (t : list Action) : bool := existsb is_completion t.

Definition returned {A} (o : Outcome A) : bool :=
  match o with
  | Returned _ => true
  | _ => false
  end.

(** ** Postconditions of generator bodies *)

(** [post m h Q]: however many events the consumer pulls, a run of [m] from
    store [h] ends in an outcome, a store and a trace that satisfy [Q]. *)
Definition post {A} (m : Gen A) (h : Histories)
    (Q : Outcome A -> Histories -> list Action -> Prop) : Prop :=
  forall p, Q (outcome (m h p)) (store (m h p)) (trace (m h p)).

(** A body that leaves the store alone. *)
Definition quiet {A} (m : Gen A) : Prop :=
  forall h, post m h (fun _ s _ => s = h).

(** [post_at m h p Q]: the run of [m] from store [h] with [p] pulls left
    ends in an outcome, a store, a number of pulls and a trace that
    satisfy [Q]. *)
Definition post_at {A} (m : Gen A) (h : Histories) (p : option nat)
    (Q : Outcome A -> Histories -> option nat -> list Action -> Prop) : Prop :=
  Q (outcome (m h p)) (store (m h p)) (pulls (m h p)) (trace (m h p)).

(** Literals, property reads and messages stay folded when a proof
    simplifies a run. *)
Arguments u : simpl never.
Arguments decimal : simpl never.
Arguments str_eqb : simpl never.
Arguments is_string : simpl never.
Arguments prop : simpl never.
Arguments index0 : simpl never.
Arguments ToString : simpl never.
Arguments item_text_of : simpl never.
Arguments error_message : simpl never.
Arguments agent_message : simpl never.
Arguments TypeError : simpl never.
Arguments disconnected : simpl never.
Arguments abort_message : simpl never.
Arguments request_failed : simpl never.
Arguments parseUsage : simpl never.
Arguments request : simpl never.

(** ** A concrete platform for the examples

    An ASCII instance of [Platform]: bytes below 128 decode to the code
    unit of the same value; [JSON.parse] covers the JSON texts whose
    strings have no escape and whose numbers are integer literals, with
    the whitespace of the JSON grammar, the last of several bindings of a
    key, and integers rounded to the nearest double; [Number(...)] of a
    string covers signed decimal integers; [path.join] joins two plain
    segments. On these inputs the instance agrees with the runtime, and
    the examples stay among them. A text that [JSON.parse] rejects gives
    [inr]; the message of the runtime's [SyntaxError], which names the
    offending token, is not reproduced. *)

Module AsciiPlatform.

Definition code (b : Byte.byte) : N := Byte.to_N b.

Definition text_of (bs : bytes) : jsstring := map code bs.

(** The bytes of an ASCII literal. *)
Definition b (s : string) : bytes := list_byte_of_string s.

(** A literal in which ['] stands for the double quote. *)
Definition js (s : string) : jsstring :=
  map (fun c => if N.eqb c 39 then quote else c) (u s).

Definition encode (s : jsstring) : bytes :=
  map (fun c => default Byte.x00 (Byte.of_N c)) s.

Definition jb (s : string) : bytes := encode (js s).

(** An event stream: one [data:] line and a blank line per event. *)
Definition sse (events : list jsstring) : bytes :=
  encode (concat (map (fun e => u "data: " ++ e ++ [LF; LF]) events)).

Definition is_digit (c : N) : bool := (48 <=? c) && (c <=? 57).

(** The whitespace of the JSON grammar: space, tab, line feed, carriage
    return. *)
Definition is_blank (c : N) : bool :=
  N.eqb c 32 || N.eqb c 9 || N.eqb c 10 || N.eqb c 13.

Fixpoint skip (s : jsstring) : jsstring :=
  match s with
  | c :: rest => if is_blank c then skip rest else s
  | [] => []
  end.

Fixpoint digits (acc : Z) (s : jsstring) : Z * jsstring :=
  match s with
  | c :: rest =>
      if is_digit c then digits (10 * acc + Z.of_N (c - 48)) rest else (acc, s)
  | [] => (acc, [])
  end.

(** The double nearest to the integer [z], ties to even; [None] beyond the
    largest double. *)
Definition nearest (z : Z) : option Z :=
  let a := Z.abs z in
  if safe_integer z then Some z
  else
    let shift := (Z.log2 a - 52)%Z in
    let q := Z.shiftr a shift in
    let r := (a - Z.shiftl q shift)%Z in
    let half := (2 ^ (shift - 1))%Z in
    let q' := if (half <? r)%Z || (r =? half)%Z && Z.odd q then (q + 1)%Z else q in
    let v := Z.shiftl q' shift in
    if (2 ^ 1024 <=? v)%Z then None else Some (Z.sgn z * v)%Z.

(** The number a decimal integer denotes. *)
Definition double (z : Z) : number :=
  match nearest z with
  | Some d => Integer d
  | None => NonInteger (if (z <? 0)%Z then u "-Infinity" else u "Infinity")
  end.

(** The integer with the fewest significant digits, [k] or more, that
    reads back as the double [a], and the closest to [a] among those;
    [n] is the number of digits of [a]. Seventeen digits always suffice. *)
Fixpoint shortest (fuel : nat) (k : Z) (a n : Z) : Z :=
  match fuel with
  | O => a
  | S fuel' =>
      if (n <=? k)%Z then a
      else
        let scale := (10 ^ (n - k))%Z in
        let lo := (a / scale * scale)%Z in
        let hi := (lo + scale)%Z in
        let lo_ok := bool_decide (nearest lo = Some a) in
        let hi_ok := bool_decide (nearest hi = Some a) in
        if lo_ok && hi_ok then
          if (a - lo <? hi - a)%Z then lo
          else if (hi - a <? a - lo)%Z then hi
          else if Z.even (lo / scale) then lo else hi
        else if lo_ok then lo
        else if hi_ok then hi
        else shortest fuel' (k + 1)%Z a n
  end.

Fixpoint strip_zeros (rev_digits : jsstring) : jsstring :=
  match rev_digits with
  | 48 :: rest => strip_zeros rest
  | _ => rev_digits
  end.

(** [Number::toString] of an integral double beyond the safe integers. *)
Definition render (z : Z) : jsstring :=
  let a := Z.abs z in
  let n := Z.of_nat (length (decimal a)) in
  let c := shortest 17 1 a n in
  let sign := if (z <? 0)%Z then u "-" else [] in
  if (c <? 10 ^ 21)%Z then sign ++ decimal c
  else
    let e := decimal (Z.of_nat (length (decimal c)) - 1) in
    match rev (strip_zeros (rev (decimal c))) with
    | [d] => sign ++ [d] ++ u "e+" ++ e
    | d :: ds => sign ++ [d] ++ u "." ++ ds ++ u "e+" ++ e
    | [] => sign ++ decimal c
    end.

(** The characters of a string literal up to its closing quote; an escape
    or a control character ends the fragment. *)
Fixpoint chars (s : jsstring) : option (jsstring * jsstring) :=
  match s with
  | [] => None
  | c :: rest =>
      if N.eqb c quote then Some ([], rest)
      else if N.eqb c 92 || (c <? 32) then None
      else match chars rest with
           | Some (str, rest') => Some (c :: str, rest')
           | None => None
           end
  end.

Definition keyword (k : string) (v : json) (s : jsstring) : option (json * jsstring) :=
  if startsWith (u k) s then Some (v, drop (String.length k) s) else None.

(** An integer literal: a single [0], or digits that do not start with
    [0]. *)
Definition integer (s : jsstring) : option (Z * jsstring) :=
  match s with
  | 48 :: rest =>
      match rest with
      | d :: _ => if is_digit d then None else Some (0%Z, rest)
      | [] => Some (0%Z, [])
      end
  | c :: _ => if is_digit c then Some (digits 0 s) else None
  | [] => None
  end.

(** [key: v] in front of the later members [props]: the property keeps the
    place of its first binding and the value of its last. *)
Definition member (key : jsstring) (v : json) (props : list (jsstring * json))
  : list (jsstring * json) :=
  (key, default v (assoc key props))
  :: filter (fun kv => negb (str_eqb kv.1 key)) props.

Fixpoint value (fuel : nat) (s : jsstring) : option (json * jsstring) :=
  match fuel with
  | O => None
  | S fuel' =>
      match skip s with
      | [] => None
      | c :: rest =>
          if N.eqb c 123 then
            match skip rest with
            | 125 :: rest' => Some (JObj [], rest')
            | _ => members fuel' rest
            end
          else if N.eqb c 91 then
            match skip rest with
            | 93 :: rest' => Some (JArr [], rest')
            | _ => elements fuel' rest
            end
          else if N.eqb c quote then
            match chars rest with
            | Some (str, rest') => Some (JStr str, rest')
            | None => None
            end
          else if N.eqb c 45 then
            match integer rest with
            | Some (n, rest') => Some (JNum (double (- n)), rest')
            | None => None
            end
          else if is_digit c then
            match integer (c :: rest) with
            | Some (n, rest') => Some (JNum (double n), rest')
            | None => None
            end
          else if N.eqb c 116 then keyword "true" (JBool true) (c :: rest)
          else if N.eqb c 102 then keyword "false" (JBool false) (c :: rest)
          else if N.eqb c 110 then keyword "null" JNull (c :: rest)
          else None
      end
  end
with members (fuel : nat) (s : jsstring) : option (json * jsstring) :=
  match fuel with
  | O => None
  | S fuel' =>
      match skip s with
      | 34 :: rest =>
          match chars rest with
          | Some (key, rest1) =>
              match skip rest1 with
              | 58 :: rest2 =>
                  match value fuel' rest2 with
                  | Some (v, rest3) =>
                      match skip rest3 with
                      | 44 :: rest4 =>
                          match members fuel' rest4 with
                          | Some (JObj props, rest5) =>
                              Some (JObj (member key v props), rest5)
                          | _ => None
                          end
                      | 125 :: rest4 => Some (JObj [(key, v)], rest4)
                      | _ => None
                      end
                  | None => None
                  end
              | _ => None
              end
          | None => None
          end
      | _ => None
      end
  end
with elements (fuel : nat) (s : jsstring) : option (json * jsstring) :=
  match fuel with
  | O => None
  | S fuel' =>
      match value fuel' s with
      | Some (v, rest) =>
          match skip rest with
          | 44 :: rest1 =>
              match elements fuel' rest1 with
              | Some (JArr items, rest2) => Some (JArr (v :: items), rest2)
              | _ => None
              end
          | 93 :: rest1 => Some (JArr [v], rest1)
          | _ => None
          end
      | None => None
      end
  end.

Definition parse (s : jsstring) : json + jsstring :=
  match value (S (length s)) s with
  | Some (v, rest) =>
      match skip rest with
      | [] => inl v
      | _ => inr (u "Unexpected non-whitespace character after JSON")
      end
  | None => inr (u "Unexpected token in JSON")
  end.

(** [Number(s)] of a string: 0 for a blank string, the double of a signed
    decimal integer, the infinities, and [NaN] for a text that is not a
    numeric literal; literals with a fraction, an exponent or a radix
    prefix are outside the instance. *)
Definition number_of (s : jsstring) : number :=
  match trim s with
  | [] => Integer 0
  | c :: rest =>
      let negative := N.eqb c 45 in
      let literal := if negative || N.eqb c 43 then rest else c :: rest in
      if str_eqb literal (u "Infinity") then
        NonInteger (if negative then u "-Infinity" else u "Infinity")
      else
        match literal with
        | d :: _ =>
            if is_digit d then
              match digits 0 literal with
              | (n, []) => double (if negative then - n else n)
              | _ => NonInteger (u "NaN")
              end
            else NonInteger (u "NaN")
        | [] => NonInteger (u "NaN")
        end
  end.

#[export] Instance platform : Platform := {|
  decoder_state := unit;
  decoder_init := tt;
  decode := fun st bs => (st, text_of bs);
  JSON_parse := parse;
  StringToNumber := number_of;
  NumberToString := render;
  Buffer_toString := text_of;
  path_join := fun dir name => dir ++ u "/" ++ name
|}.

End AsciiPlatform.

(** ** Example turns *)

Module Scenario.
Import AsciiPlatform.

Definition assistantMessage (t : string) : jsstring :=
  js "{'type':'response.output_item.done','item':{'type':'message','role':'assistant','content':[{'type':'output_text','text':'"
  ++ u t ++ js "'}]}}".

Definition responseCompleted : jsstring :=
  js "{'type':'response.completed','response':{'usage':{'input_tokens':42,'input_tokens_details':{'cached_tokens':12},'output_tokens':5}}}".

Definition responseFailed (message : string) : jsstring :=
  js "{'type':'error','error':{'message':'" ++ u message ++ js "'}}".

Definition child0 : ChildProcess :=
  {| stdin := true; stdinError := None; stdout := Some []; stderr := Some [];
     spawnError := None; exitCode := Some 0%Z; exitHeard := true |}.

(** A world without files, whose endpoint answers [answer] and whose
    subprocess behaves as [child]. *)
Definition world (answer : FetchResult) (child : ChildProcess) : World :=
  {| existsSync := fun _ => false;
     readFileSync := fun _ => inr (u "ENOENT");
     randomUUID := u "0001";
     process_env := ∅;
     fetch := fun _ => answer;
     spawn := fun _ _ _ => child |}.

Definition ok200 (stream : list bytes) : FetchResult :=
  Resolved {| ok := true; status := 200; response_text := None;
              body := Some (map Chunk stream) |}.

Definition error500 : FetchResult :=
  Resolved {| ok := false; status := 500;
              response_text := Some (u "internal error"); body := None |}.

Definition exec : CodexExec := {| executablePath := u "codex"; envOverride := None |}.

(** [thread.run(text)] against a remote endpoint, on thread [id]. *)
Definition remote (id : option jsstring) (text : string) : CodexExecArgs :=
  {| input := u text; baseUrl := Some (u "http://localhost:8080");
     apiKey := Some (u "test"); threadId := id; images := None; model := None;
     sandboxMode := None; workingDirectory := None; additionalDirectories := None;
     skipGitRepoCheck := None; outputSchemaFile := None;
     modelReasoningEffort := None; signal := None; networkAccessEnabled := None;
     webSearchEnabled := None; approvalPolicy := None |}.

(** The same turn through the local subprocess. *)
Definition local (id : option jsstring) (text : string) : CodexExecArgs :=
  {| input := u text; baseUrl := None;
     apiKey := None; threadId := id; images := None; model := None;
     sandboxMode := None; workingDirectory := None; additionalDirectories := None;
     skipGitRepoCheck := None; outputSchemaFile := None;
     modelReasoningEffort := None; signal := None; networkAccessEnabled := None;
     webSearchEnabled := None; approvalPolicy := None |}.

Definition parsed (s : jsstring) : json :=
  match parse s with
  | inl v => v
  | inr _ => JNull
  end.

(** A directory without [.git], and a world in which nothing exists. *)
Definition workdir : jsstring := u "/tmp/codex-working-dir".

Definition in_workdir (args : CodexExecArgs) : CodexExecArgs :=
  {| input := input args; baseUrl := baseUrl args; apiKey := apiKey args;
     threadId := threadId args; images := images args; model := model args;
     sandboxMode := sandboxMode args; workingDirectory := Some workdir;
     additionalDirectories := additionalDirectories args;
     skipGitRepoCheck := skipGitRepoCheck args;
     outputSchemaFile := outputSchemaFile args;
     modelReasoningEffort := modelReasoningEffort args; signal := signal args;
     networkAccessEnabled := networkAccessEnabled args;
     webSearchEnabled := webSearchEnabled args;
     approvalPolicy := approvalPolicy args |}.

Definition t1 : jsstring := u "thread_0001".

Definition said (r : Role) (t : string) : ConversationMessage :=
  {| role := r; text := JStr (u t) |}.

(** An entry of a request input with one content part. *)
Definition entry (r : Role) (type text : string) : InputEntry :=
  {| entry_role := r;
     content := [{| part_type := u type; part_text := JStr (u text) |}] |}.

(** A store in which thread [t1] already holds one exchange. *)
Definition store1 : Histories := {[ t1 := [said user "first input"; said assistant "First response"] ]}.

(** The stream of the test "returns thread events". *)
Definition hello : list bytes := [sse [assistantMessage "Hi!"; responseCompleted]].

(** A completed stream with two output items. *)
Definition two_items : list bytes :=
  [sse [assistantMessage "Let me look."; assistantMessage "Done."; responseCompleted]].

(** The stream of the test "throws ThreadRunError on turn failures". *)
Definition failing : list bytes := [sse [responseFailed "rate limit exceeded"]].


(** A two-event stream cut inside the first [data:] line and inside the
    blank line that ends it. *)
Definition cut_stream : list bytes :=
  [jb "data: {'type':'response.outp";
   encode (js "ut_item.done','item':{'content':[{'text':'Hi!'}]}}" ++ [LF]);
   encode ([LF] ++ u "data: " ++ responseCompleted ++ [LF; LF])].

(** A subprocess that prints two lines and exits with code 2. *)
Definition child2 : ChildProcess :=
  {| stdin := true;
     stdinError := None;
     stdout := Some [js "{'type':'thread.started','thread_id':'t'}";
                     js "{'type':'turn.started'}"];
     stderr := Some [b "fatal: "; b "no such model"];
     spawnError := None;
     exitCode := Some 2%Z;
     exitHeard := true |}.

(** A subprocess that prints two lines and exits with code 0 while its
    lines are still being read. *)
Definition early_exit : ChildProcess :=
  {| stdin := true;
     stdinError := None;
     stdout := Some [js "{'type':'thread.started','thread_id':'t'}";
                     js "{'type':'turn.started'}"];
     stderr := Some [];
     spawnError := None;
     exitCode := Some 0%Z;
     exitHeard := false |}.

End Scenario.

(** ** Locating the executable *)

(** [process.platform], [process.arch] and the directory of the script
    ([path.dirname(fileURLToPath(import.meta.url))]). *)
Record Process := {
  process_platform : jsstring;
  process_arch : jsstring;
  scriptDirName : jsstring
}.

(** The inner [switch (arch)] of one platform. *)
Definition by_arch (arch : jsstring) (x64 arm64 : string) : option jsstring :=
  if str_eqb arch (u "x64") then Some (u x64)
  else if str_eqb arch (u "arm64") then Some (u arm64)
  else None.

(** The [switch (platform)] of [findCodexPath]; [None] is [null]. *)
Definition targetTriple (pr : Process) : option jsstring :=
  let platform := process_platform pr in
  let arch := process_arch pr in
  if str_eqb platform (u "linux") || str_eqb platform (u "android") then
    by_arch arch "x86_64-unknown-linux-musl" "aarch64-unknown-linux-musl"
  else if str_eqb platform (u "darwin") then
    by_arch arch "x86_64-apple-darwin" "aarch64-apple-darwin"
  else if str_eqb platform (u "win32") then
    by_arch arch "x86_64-pc-windows-msvc" "aarch64-pc-windows-msvc"
  else None.

Section Locate.
Context `{Platform}.

(** [findCodexPath]: the path of the vendored binary, or the message of the
    error it throws. [path.join] of several segments joins them from the
    left. *)
Definition findCodexPath (pr : Process) : jsstring + jsstring :=
  match targetTriple pr with
  | None =>
      inr (u "Unsupported platform: " ++ process_platform pr
           ++ u " (" ++ process_arch pr ++ u ")")
  | Some triple =>
      let vendorRoot := path_join (path_join (scriptDirName pr) (u "..")) (u "vendor") in
      let archRoot := path_join vendorRoot triple in
      let codexBinaryName :=
        if str_eqb (process_platform pr) (u "win32") then u "codex.exe" else u "codex" in
      inl (path_join (path_join archRoot (u "codex")) codexBinaryName)
  end.

(** [new CodexExec(executablePath, env)]:
    [this.executablePath = executablePath || findCodexPath()]. *)
Definition new_CodexExec (pr : Process) (path : option jsstring) (env : option Env)
  : CodexExec + jsstring :=
  match path with
  | Some (c :: p) => inl {| executablePath := c :: p; envOverride := env |}
  | _ =>
      match findCodexPath pr with
      | inl found => inl {| executablePath := found; envOverride := env |}
      | inr e => inr e
      end
  end.

End Locate.

(** ** Notions used by the further properties *)

(** The item of an [item.completed] event. *)
Definition completed_item (y : Yielded) : option ThreadItem :=
  match y with
  | stringify (item_completed item) => Some item
  | _ => None
  end.

Definition is_item_started (e : ThreadEvent) : bool :=
  match e with
  | item_started _ => true
  | _ => false
  end.

(** An event that tells how the turn ended. *)
Definition is_terminal (a : Action) : bool :=
  match a with
  | AYield (stringify (turn_completed _)) | AYield (stringify (turn_failed _)) => true
  | _ => false
  end.

Definition is_failure (a : Action) : bool :=
  match a with
  | AYield (stringify (turn_failed _)) => true
  | _ => false
  end.

(** The items of the assistant messages [msgs], numbered from [n]. *)
Definition numbered (n : nat) (msgs : list ConversationMessage) : list ThreadItem :=
  imap (fun i m => agent_message (n + i) (text m)) msgs.

(** The chunks of a body that is read to its end without a rejection. *)
Fixpoint chunks_of (reads : list ReadResult) : option (list bytes) :=
  match reads with
  | [] => Some []
  | Chunk value :: rest =>
      match chunks_of rest with
      | Some chunks => Some (value :: chunks)
      | None => None
      end
  | ReadRejected _ :: _ => None
  end.

(** The same body delivered as a single chunk. *)
Definition one_chunk (reads : list ReadResult) : list ReadResult :=
  match chunks_of reads with
  | Some chunks => [Chunk (concat chunks)]
  | None => reads
  end.

(** The world in which every response body is delivered as [f] says. *)
Definition reframe (f : list ReadResult -> list ReadResult) (w : World) : World :=
  {| existsSync := existsSync w;
     readFileSync := readFileSync w;
     randomUUID := randomUUID w;
     process_env := process_env w;
     fetch := fun req =>
       match fetch w req with
       | Resolved r =>
           Resolved {| ok := ok r; status := status r;
                       response_text := response_text r;
                       body := f <$> body r |}
       | Rejected e => Rejected e
       end;
     spawn := spawn w |}.

(** What the HTTP path may hand over after its request: events, and an
    [item.started] only when a signal was passed. *)
Definition http_yield (args : CodexExecArgs) (a : Action) : Prop :=
  match a with
  | AYield (stringify e) => signal args = None -> is_item_started e = false
  | _ => False
  end.

(** ** Further example data *)

Module Cases.
Import AsciiPlatform Scenario.

(** [args] with the signal [sig]. *)
Definition with_signal (sig : AbortSignal) (args : CodexExecArgs) : CodexExecArgs :=
  {| input := input args; baseUrl := baseUrl args; apiKey := apiKey args;
     threadId := threadId args; images := images args; model := model args;
     sandboxMode := sandboxMode args; workingDirectory := workingDirectory args;
     additionalDirectories := additionalDirectories args;
     skipGitRepoCheck := skipGitRepoCheck args;
     outputSchemaFile := outputSchemaFile args;
     modelReasoningEffort := modelReasoningEffort args; signal := Some sig;
     networkAccessEnabled := networkAccessEnabled args;
     webSearchEnabled := webSearchEnabled args;
     approvalPolicy := approvalPolicy args |}.

(** [args] with an output schema file, additional directories and images. *)
Definition with_files (schema : jsstring) (dirs paths : list jsstring)
    (args : CodexExecArgs) : CodexExecArgs :=
  {| input := input args; baseUrl := baseUrl args; apiKey := apiKey args;
     threadId := threadId args; images := Some paths; model := model args;
     sandboxMode := sandboxMode args; workingDirectory := workingDirectory args;
     additionalDirectories := Some dirs;
     skipGitRepoCheck := skipGitRepoCheck args;
     outputSchemaFile := Some schema;
     modelReasoningEffort := modelReasoningEffort args; signal := signal args;
     networkAccessEnabled := networkAccessEnabled args;
     webSearchEnabled := webSearchEnabled args;
     approvalPolicy := approvalPolicy args |}.

(** A signal that is aborted from its [n]-th poll on. *)
Definition fires_at (n : nat) : AbortSignal :=
  {| reason := Some (u "stop"); aborted := fun k => Nat.leb n k |}.

Definition functionCall : jsstring :=
  js "{'type':'response.output_item.done','item':{'type':'function_call','name':'shell'}}".

(** A stream whose last event lacks the blank line. *)
Definition unfinished : list bytes :=
  [sse [assistantMessage "Hi!"]; jb "data: "; encode responseCompleted; encode [LF]].

Definition linux_x64 : Process :=
  {| process_platform := u "linux"; process_arch := u "x64";
     scriptDirName := u "/sdk/dist" |}.

Definition mute_child : ChildProcess :=
  {| stdin := false; stdinError := None; stdout := Some []; stderr := Some [];
     spawnError := None; exitCode := Some 0%Z; exitHeard := true |}.

(** A subprocess that has closed its stdin: the write fails with [EPIPE]
    when one of its two lines has been handed over. *)
Definition broken_pipe : ChildProcess :=
  {| stdin := true;
     stdinError := Some (1%nat, u "write EPIPE");
     stdout := Some [js "{'type':'thread.started','thread_id':'t'}";
                     js "{'type':'turn.started'}"];
     stderr := Some [];
     spawnError := None;
     exitCode := Some 0%Z;
     exitHeard := true |}.

End Cases.

(** ** Proof steps *)


(** Two different literals. *)
Ltac distinct := let E := fresh in intros E; vm_compute in E; discriminate E.

(** * Properties *)

(** ** Segmentation on blank lines *)

Lemma blank_ind (P : jsstring -> Prop) :
  P [] ->
  (forall r, P r -> P (LF :: LF :: r)) ->
  (forall c r, at_blank (c :: r) = false -> P r -> P (c :: r)) ->
  forall s, P s.
Proof.
  intros Hnil Hsep Hstep s.
  remember (length s) as n eqn:Hn.
  revert s Hn. induction n as [n IH] using lt_wf_ind. intros s Hn.
  destruct s as [|c [|c' r]]; [exact Hnil | apply Hstep; [reflexivity | exact Hnil] |].
  destruct (at_blank (c :: c' :: r)) eqn:E.
  - simpl in E. apply andb_true_iff in E as [Ec Ec'].
    apply N.eqb_eq in Ec, Ec'. subst c c'.
    apply Hsep. apply (IH (length r)); [simpl in Hn; lia | reflexivity].
  - apply Hstep; [exact E |].
    apply (IH (length (c' :: r))); [simpl in *; lia | reflexivity].
Qed.

Lemma segments_step c r :
  at_blank (c :: r) = false -> segments (c :: r) = attach c (segments r).
Proof.
  destruct r as [|c' r]; simpl.
  - destruct (N.eqb c LF); reflexivity.
  - destruct (N.eqb c LF), (N.eqb c' LF); simpl; try discriminate; reflexivity.
Qed.

Lemma split_blank_step c r :
  at_blank (c :: r) = false -> split_blank (c :: r) = cons_first c (split_blank r).
Proof.
  destruct r as [|c' r]; simpl.
  - destruct (N.eqb c LF); reflexivity.
  - destruct (N.eqb c LF), (N.eqb c' LF); simpl; try discriminate; reflexivity.
Qed.

Lemma segments_blank r :
  segments (LF :: LF :: r) = ([] :: (segments r).1, (segments r).2).
Proof. simpl. destruct (segments r). reflexivity. Qed.

Lemma split_blank_nonempty s : split_blank s <> [].
Proof.
  induction s as [| r IH | c r E IH] using blank_ind; [discriminate | discriminate |].
  rewrite split_blank_step by exact E.
  destruct (split_blank r); discriminate.
Qed.

(** [split] then [pop] is [segments]. *)
Lemma pop_split_blank s :
  pop (split_blank s) = ((segments s).1, Some (segments s).2).
Proof.
  induction s as [| r IH | c r E IH] using blank_ind.
  - reflexivity.
  - rewrite segments_blank. cbn [split_blank N.eqb LF Pos.eqb].
    pose proof (split_blank_nonempty r) as Hne.
    cbn [pop]. destruct (split_blank r) as [|p ps]; [contradiction|].
    rewrite IH. reflexivity.
  - rewrite segments_step, split_blank_step by exact E.
    pose proof (split_blank_nonempty r) as Hne.
    destruct (split_blank r) as [|p ps]; [contradiction|].
    destruct (segments r) as [qs rem]. simpl in IH |- *.
    destruct ps as [|p' ps].
    + injection IH as <- <-. reflexivity.
    + destruct (pop (p' :: ps)) as [init last]. injection IH as <- ->. reflexivity.
Qed.

(** A string without a delimited segment is its own remainder. *)
Lemma segments_none s : (segments s).1 = [] -> (segments s).2 = s.
Proof.
  induction s as [| r IH | c r E IH] using blank_ind.
  - reflexivity.
  - rewrite segments_blank. discriminate.
  - rewrite segments_step by exact E.
    destruct (segments r) as [[|p ps] rem]; simpl in *; [|discriminate].
    intros _. f_equal. apply IH. reflexivity.
Qed.

(** The remainder holds no delimited segment. *)
Lemma segments_remainder s : (segments (segments s).2).1 = [].
Proof.
  induction s as [| r IH | c r E IH] using blank_ind.
  - reflexivity.
  - rewrite segments_blank. exact IH.
  - rewrite segments_step by exact E.
    destruct (segments r) as [[|p ps] rem] eqn:Er; cbn [attach fst snd] in *;
      [|exact IH].
    assert (rem = r) as -> by (rewrite <- (segments_none r); rewrite Er; reflexivity).
    rewrite segments_step by exact E. rewrite Er. reflexivity.
Qed.

(** Cutting the text anywhere: the segments of the whole are the segments
    of the first piece, then those of its remainder followed by the
    second piece. *)
Lemma segments_app s1 s2 :
  segments (s1 ++ s2) =
  ((segments s1).1 ++ (segments ((segments s1).2 ++ s2)).1,
   (segments ((segments s1).2 ++ s2)).2).
Proof.
  induction s1 as [| r IH | c r E IH] using blank_ind.
  - simpl. destruct (segments s2); reflexivity.
  - change ((LF :: LF :: r) ++ s2) with (LF :: LF :: (r ++ s2)).
    rewrite !segments_blank, IH. reflexivity.
  - destruct (segments (c :: r)).1 as [|p0 ps0] eqn:Hparts.
    + rewrite (segments_none _ Hparts). cbn [app].
      apply surjective_pairing.
    + assert (at_blank (c :: r ++ s2) = false) as E'.
      { destruct r as [|c' r]; [|exact E].
        rewrite segments_step in Hparts by exact E. discriminate. }
      change ((c :: r) ++ s2) with (c :: (r ++ s2)).
      rewrite segments_step by exact E'. rewrite IH.
      rewrite segments_step in Hparts |- * by exact E.
      destruct (segments r) as [[|p ps] rem]; simpl in *; [discriminate|].
      injection Hparts as <- <-. reflexivity.
Qed.

(** The first delimited segment is a prefix of the text, followed by the
    separator. *)
Lemma segments_first s p ps :
  (segments s).1 = p :: ps -> exists post, s = p ++ [LF; LF] ++ post.
Proof.
  revert p ps. induction s as [| r IH | c r E IH] using blank_ind; intros p ps.
  - discriminate.
  - rewrite segments_blank. simpl. intros [= <- _]. exists r. reflexivity.
  - rewrite segments_step by exact E.
    destruct (segments r) as [[|q qs] rem]; simpl; [discriminate|].
    intros [= <- <-]. destruct (IH q qs eq_refl) as [post ->].
    exists post. reflexivity.
Qed.

(** Every delimited segment is followed by the separator in the text. *)
Lemma segments_delimited s part :
  part ∈ (segments s).1 ->
  exists pre post, s = pre ++ part ++ [LF; LF] ++ post.
Proof.
  revert part. induction s as [| r IH | c r E IH] using blank_ind; intros part.
  - simpl. intros Hin. inversion Hin.
  - rewrite segments_blank. simpl. intros Hin.
    apply elem_of_cons in Hin as [-> | Hin].
    + exists [], r. reflexivity.
    + destruct (IH _ Hin) as (pre & post & ->).
      exists (LF :: LF :: pre), post. reflexivity.
  - rewrite segments_step by exact E.
    destruct (segments r) as [[|p ps] rem] eqn:Er; simpl.
    + intros Hin. inversion Hin.
    + intros Hin. apply elem_of_cons in Hin as [-> | Hin].
      * destruct (segments_first r p ps) as [post ->]; [rewrite Er; reflexivity|].
        exists [], post. reflexivity.
      * destruct (IH part) as (pre & post & ->); [simpl; right; exact Hin|].
        exists (c :: pre), post. reflexivity.
Qed.

(** ** The decoder *)

Section DecoderFacts.
Context `{Platform}.

Lemma emit_app ps qs :
  emit (ps ++ qs) =
  match emit ps with
  | (evs, Some e) => (evs, Some e)
  | (evs, None) => let '(evs', err) := emit qs in (evs ++ evs', err)
  end.
Proof.
  induction ps as [|p ps IH]; simpl.
  - destruct (emit qs); reflexivity.
  - destruct (dataLine p) as [[|c d]|]; try exact IH.
    destruct (JSON_parse (c :: d)); [|reflexivity].
    rewrite IH. destruct (emit ps) as [evs [e|]]; [reflexivity|].
    destruct (emit qs). reflexivity.
Qed.

(** Every event comes from the [data:] line of one of the segments. *)
Lemma emit_elem ps ev :
  ev ∈ (emit ps).1 ->
  exists part d, part ∈ ps /\ dataLine part = Some d /\ JSON_parse d = inl ev.
Proof.
  induction ps as [|p ps IH]; simpl.
  - intros Hin. inversion Hin.
  - assert (ev ∈ (emit ps).1 ->
            exists part d, part ∈ p :: ps /\ dataLine part = Some d /\ JSON_parse d = inl ev)
      as Hrest.
    { intros Hin. destruct (IH Hin) as (part & d & Hp & Hd & He).
      exists part, d. split; [right; exact Hp | split; assumption]. }
    destruct (dataLine p) as [[|c d]|] eqn:Hd; try exact Hrest.
    destruct (JSON_parse (c :: d)) as [v|e] eqn:Hv.
    + destruct (emit ps) as [evs err]. simpl in *. intros Hin.
      apply elem_of_cons in Hin as [-> | Hin]; [|exact (Hrest Hin)].
      exists p, (c :: d). split; [left | split; assumption].
    + simpl. intros Hin. inversion Hin.
Qed.

(** The loop over chunks emits what the segments of the whole text emit,
    whatever the cuts. *)
Lemma parseSse_from_chunks signal chunks : never_aborted signal ->
  forall k dec buffer, (segments buffer).1 = [] ->
  parseSse_from signal k dec buffer (map Chunk chunks) =
  emit (segments (buffer ++ decode_all dec chunks)).1.
Proof.
  intros Hsig. induction chunks as [|value rest IH]; intros k dec buffer Hbuf.
  - cbn [map parseSse_from decode_all]. rewrite Hsig, app_nil_r, Hbuf. reflexivity.
  - cbn [map parseSse_from decode_all]. rewrite Hsig.
    destruct (decode dec value) as [dec' t].
    rewrite pop_split_blank. cbn [default].
    rewrite (app_assoc buffer t), (segments_app (buffer ++ t) (decode_all dec' rest)).
    cbn [fst snd default]. rewrite emit_app.
    destruct (emit (segments (buffer ++ t)).1) as [evs [e|]]; [reflexivity|].
    rewrite IH by apply segments_remainder. reflexivity.
Qed.

Lemma decode_all_concat : streaming ->
  forall chunks dec, decode_all dec chunks = (decode dec (concat chunks)).2.
Proof.
  intros [Hnil Happ]. induction chunks as [|value rest IH]; intros dec.
  - simpl. rewrite Hnil. reflexivity.
  - cbn [decode_all concat]. rewrite Happ.
    destruct (decode dec value) as [dec' t]. rewrite IH.
    destruct (decode dec' (concat rest)). reflexivity.
Qed.

(** C3. The SSE decoder is chunk-boundary invariant: for a streaming
    [TextDecoder] and a signal that does not fire, the events (and the
    error, if a [data:] line does not parse) of a byte stream cut into any
    sequence of chunks are those of the stream read as a single chunk; and
    every event is parsed from the [data:] line of a segment that the
    decoded text continues with the blank-line delimiter. *)
Theorem parseSse_chunk_invariant : streaming ->
  forall signal chunks, never_aborted signal ->
    parseSse (map Chunk chunks) signal = parseSse [Chunk (concat chunks)] signal
    /\ forall ev, ev ∈ (parseSse (map Chunk chunks) signal).1 ->
         exists pre part post d,
           decode_all decoder_init chunks = pre ++ part ++ [LF; LF] ++ post
           /\ dataLine part = Some d /\ JSON_parse d = inl ev.
Proof.
  intros Hstream signal chunks Hsig. unfold parseSse.
  rewrite (parseSse_from_chunks signal chunks Hsig) by reflexivity.
  split.
  - change [Chunk (concat chunks)] with (map Chunk [concat chunks]).
    rewrite (parseSse_from_chunks signal [concat chunks] Hsig) by reflexivity.
    rewrite !decode_all_concat by exact Hstream.
    cbn [concat]. rewrite app_nil_r. reflexivity.
  - intros ev Hin. cbn [app] in Hin.
    destruct (emit_elem _ _ Hin) as (part & d & Hpart & Hd & Hev).
    destruct (segments_delimited _ _ Hpart) as (pre & post & Htext).
    exists pre, part, post, d. split; [exact Htext | split; assumption].
Qed.

End DecoderFacts.

(** ** Reasoning about generator bodies *)

Lemma post_ret {A} (a : A) h Q : Q (Returned a) h [] -> post (ret a) h Q.
Proof. intros HQ p. exact HQ. Qed.

Lemma post_throw {A} e h (Q : Outcome A -> _) : Q (Threw e) h [] -> post (throw e) h Q.
Proof. intros HQ p. exact HQ. Qed.

Lemma post_act a h Q : Q (Returned tt) h [a] -> post (act a) h Q.
Proof. intros HQ p. exact HQ. Qed.

Lemma post_bind {A B} (m : Gen A) (k : A -> Gen B) h Q :
  post m h (fun o h1 t1 =>
              match o with
              | Returned a => post (k a) h1 (fun o' h2 t2 => Q o' h2 (t1 ++ t2))
              | Threw e => Q (Threw e) h1 t1
              | Abandoned => Q Abandoned h1 t1
              | Unsettled f => Q (Unsettled f) h1 t1
              end) ->
  post (bind m k) h Q.
Proof.
  intros Hm p. specialize (Hm p). unfold bind.
  destruct (outcome (m h p)); simpl; [apply Hm | exact Hm..].
Qed.

Lemma post_resume h Q :
  Q (Returned tt) h [] -> Q Abandoned h [] -> post resume h Q.
Proof. intros Hr Ha [[|n]|]; simpl; assumption. Qed.

Lemma post_yield y h Q :
  Q (Returned tt) h [AYield y] -> Q Abandoned h [AYield y] -> post (yield y) h Q.
Proof.
  intros Hr Ha. unfold yield. apply post_bind, post_act, post_resume; assumption.
Qed.

Lemma post_get threadId h Q :
  Q (Returned (get h threadId)) h [] -> post (histories_get threadId) h Q.
Proof. intros HQ p. exact HQ. Qed.

Lemma post_set threadId messages h Q :
  Q (Returned tt) (<[threadId := messages]> h) [] ->
  post (histories_set threadId messages) h Q.
Proof. intros HQ p. exact HQ. Qed.

Lemma post_weaken {A} (m : Gen A) h (Q Q' : Outcome A -> _) :
  post m h Q -> (forall o s t, Q o s t -> Q' o s t) -> post m h Q'.
Proof. intros Hm HQ p. apply HQ, Hm. Qed.

Lemma has_completed_app t1 t2 :
  has_completed (t1 ++ t2) = has_completed t1 || has_completed t2.
Proof. apply existsb_app. Qed.

Lemma has_completed_yields t :
  has_completed t = true <->
  exists usage, stringify (turn_completed usage) ∈ yields t.
Proof.
  induction t as [|a t IH]; simpl.
  - split; [discriminate | intros [? Hin]; inversion Hin].
  - destruct a as [[[]|]| | |]; simpl; rewrite ?IH;
      try (split; [intros [x Hx]; exists x; try right; exact Hx
                  | intros [x Hx]; exists x;
                    try (apply elem_of_cons in Hx as [Hx|Hx]; [discriminate|]); exact Hx]).
    split; [intros _; eexists; left | reflexivity].
Qed.

(** ** The history store *)

Lemma quiet_yield_each vs : quiet (yield_each vs).
Proof.
  induction vs as [|v vs IH]; intros h; simpl.
  - apply post_ret. reflexivity.
  - apply post_bind, post_yield; [|reflexivity].
    eapply post_weaken; [apply IH|]. auto.
Qed.

Section StoreFacts.
Context `{Platform}.

Lemma post_unsettled {A} f h (Q : Outcome A -> _) :
  Q (Unsettled f) h [] -> post (unsettled f) h Q.
Proof. intros HQ p. exact HQ. Qed.

Lemma quiet_read_lines child lines : quiet (read_lines child lines).
Proof.
  intros h. unfold read_lines.
  destruct (stdinError child) as [[n e]|]; [|apply quiet_yield_each].
  destruct (n <? length lines)%nat; [|apply quiet_yield_each].
  apply post_bind. eapply post_weaken; [apply quiet_yield_each|].
  intros [[]| | |?] s t ->; try reflexivity.
  apply post_unsettled. reflexivity.
Qed.

Lemma quiet_await_exit child : quiet (await_exit child).
Proof.
  intros h. unfold await_exit.
  destruct (stdinError child) as [[n e]|]; [apply post_unsettled; reflexivity|].
  destruct (exitHeard child); [|apply post_unsettled; reflexivity].
  destruct (exitCode child) as [[| |]|];
    first [apply post_ret | apply post_throw]; reflexivity.
Qed.

Lemma quiet_runProcess this w args : quiet (runProcess this w args).
Proof.
  intros h. unfold runProcess.
  apply post_bind, post_act.
  destruct (stdin _); simpl; [|apply post_throw; reflexivity].
  apply post_bind, post_act.
  destruct (stdout _); [|apply post_throw; reflexivity].
  apply post_bind. eapply post_weaken; [apply quiet_read_lines|].
  intros [[]| | |?] s t ->; try reflexivity.
  destruct (spawnError _); [apply post_throw; reflexivity|].
  apply quiet_await_exit.
Qed.

Lemma assistant_messages_cons event rest :
  assistant_messages (event :: rest) =
  assistant_messages [event] ++ assistant_messages rest.
Proof.
  unfold assistant_messages. cbn [omap list_omap].
  destruct (is_string "response.output_item.done" _); reflexivity.
Qed.

Lemma post_item_guard args item h Q :
  Q (Returned tt) h [] -> (forall e, Q (Threw e) h []) ->
  post (item_guard args item) h Q.
Proof.
  intros Hok Herr. unfold item_guard.
  destruct (signal args) as [sig|]; [|apply post_ret, Hok].
  destruct item as [[| | | | |]|]; try (apply post_throw, Herr);
    destruct (is_string "function_call" _);
    first [apply post_throw, Herr | apply post_ret, Hok].
Qed.

Lemma post_when (b : bool) m h Q :
  (b = true -> post m h Q) -> (b = false -> Q (Returned tt) h []) ->
  post (when b m) h Q.
Proof.
  intros Ht Hf. destruct b; [apply Ht; reflexivity | apply post_ret, Hf; reflexivity].
Qed.

(** One iteration leaves the store alone, appends an assistant message for
    an output-item event, and sets [completed] exactly when it hands over a
    [turn.completed]. *)
Lemma post_dispatch args event ls h :
  post (dispatch args event ls) h (fun o s t =>
    s = h /\
    match o with
    | Returned ls' =>
        updatedHistory ls' = updatedHistory ls ++ assistant_messages [event]
        /\ completed ls' = completed ls || has_completed t
    | _ => True
    end).
Proof.
  unfold dispatch, assistant_messages. cbn [omap list_omap].
  destruct (is_string "response.output_item.done" _).
  - apply post_bind, post_when; intros _.
    + apply post_yield; [|auto].
      apply post_bind, post_item_guard; [|auto].
      apply post_bind, post_yield; [|auto]. apply post_ret.
      cbn [updatedHistory completed has_completed existsb is_completion app orb].
      rewrite orb_false_r. auto.
    + apply post_bind, post_item_guard; [|auto].
      apply post_bind, post_yield; [|auto]. apply post_ret.
      cbn [updatedHistory completed has_completed existsb is_completion app orb].
      rewrite orb_false_r. auto.
  - destruct (is_string "response.completed" _); [|destruct (is_string "error" _)].
    + apply post_bind, post_yield; [|auto]. apply post_ret.
      cbn [updatedHistory completed has_completed existsb is_completion app orb].
      rewrite app_nil_r, orb_true_r. auto.
    + apply post_bind, post_yield; [|auto]. apply post_ret.
      cbn [updatedHistory completed has_completed existsb is_completion app orb].
      rewrite app_nil_r, orb_false_r. auto.
    + apply post_ret. cbn [has_completed existsb]. rewrite app_nil_r, orb_false_r. auto.
Qed.

Lemma post_handle args event ls h :
  post (handle args event ls) h (fun o s t =>
    s = h /\
    match o with
    | Returned ls' =>
        updatedHistory ls' = updatedHistory ls ++ assistant_messages [event]
        /\ completed ls' = completed ls || has_completed t
    | _ => True
    end).
Proof.
  destruct event; try apply post_dispatch.
  apply post_throw. auto.
Qed.

(** The read loop leaves the store alone, appends one assistant message
    per output-item event, and sets [completed] exactly when it hands over
    a [turn.completed]. *)
Lemma post_consume args events : forall ls h,
  post (consume args events ls) h (fun o s t =>
    s = h /\
    match o with
    | Returned ls' =>
        updatedHistory ls' = updatedHistory ls ++ assistant_messages events
        /\ completed ls' = completed ls || has_completed t
    | _ => True
    end).
Proof.
  induction events as [|event rest IH]; intros ls h.
  - apply post_ret. rewrite app_nil_r, orb_false_r. auto.
  - cbn [consume]. apply post_bind.
    eapply post_weaken; [apply post_handle|].
    intros [ls1| | |?] s t [-> Ho]; auto.
    destruct Ho as [Hupd Hc].
    eapply post_weaken; [apply IH|].
    intros [ls2| | |?] s' t' [-> Ho']; split; auto.
    destruct Ho' as [-> ->].
    rewrite Hupd, Hc, has_completed_app, orb_assoc, <- app_assoc.
    rewrite <- assistant_messages_cons. auto.
Qed.

Lemma post_preflight args h Q :
  Q (Returned tt) h [] -> (forall e, Q (Threw e) h []) -> post (preflight args) h Q.
Proof.
  intros Hok Herr. unfold preflight.
  destruct (signal args) as [sig|]; [|apply post_ret, Hok].
  destruct (aborted sig 0); [apply post_throw, Herr|].
  destruct (aborted sig 1); [apply post_throw, Herr | apply post_ret, Hok].
Qed.

Lemma post_load_schema w args h Q :
  (forall schema, schema_of w args = inl schema -> Q (Returned schema) h []) ->
  (forall e, Q (Threw e) h []) ->
  post (load_schema w args) h Q.
Proof.
  intros Hok Herr. unfold load_schema.
  destruct (schema_of w args); [apply post_ret, Hok; reflexivity | apply post_throw, Herr].
Qed.

Lemma post_await_fetch w req h Q :
  (forall r, fetch w req = Resolved r -> Q (Returned r) h [AFetch req]) ->
  (forall e, Q (Threw e) h [AFetch req]) ->
  post (await_fetch w req) h Q.
Proof.
  intros Hok Herr. unfold await_fetch. apply post_bind, post_act.
  destruct (fetch w req); [apply post_ret, Hok; reflexivity | apply post_throw, Herr].
Qed.

(** The HTTP path replaces the history of its thread when it returns after
    handing over a [turn.completed], and leaves the store alone otherwise. *)
Lemma post_runHttp w args h :
  post (runHttp w args) h (fun o s t =>
    s = if returned o && has_completed t
        then <[resolve_thread w args := committed w args h]> h
        else h).
Proof.
  unfold runHttp.
  apply post_bind, post_preflight; [|reflexivity].
  apply post_bind, post_get.
  apply post_bind, post_load_schema; [|reflexivity]. intros schema Hschema.
  apply post_bind, post_await_fetch; [|reflexivity]. intros r Hfetch.
  apply post_bind, post_yield; [|reflexivity].
  apply post_bind, post_yield; [|reflexivity].
  destruct (ok r); cbn [negb]; [|apply post_yield; reflexivity].
  destruct (body r) as [reads|] eqn:Hbody; [|apply post_yield; reflexivity].
  assert (decoded w args h = (parseSse reads (signal args)).1) as Hdecoded.
  { unfold decoded, exchange. rewrite Hschema, Hfetch, Hbody. reflexivity. }
  destruct (parseSse reads (signal args)) as [events err]. cbn [fst] in Hdecoded.
  apply post_bind. eapply post_weaken; [apply post_consume|].
  intros [ls| | |?] s t [-> Ho]; [|reflexivity..].
  cbn [updatedHistory completed] in Ho. destruct Ho as [Hupd Hc].
  apply post_bind.
  destruct err as [e|]; [apply post_throw; reflexivity | apply post_ret].
  apply post_bind. cbn [orb] in Hc.
  assert (forall req id post,
             has_completed post = false ->
             has_completed
               (AFetch req :: AYield (stringify (thread_started id))
                :: AYield (stringify turn_started) :: t ++ post) = completed ls)
    as Htrace.
  { intros req id post Hpost. cbn [has_completed existsb is_completion orb].
    fold (has_completed (t ++ post)).
    rewrite has_completed_app, Hpost, orb_false_r. symmetry. exact Hc. }
  apply post_when; intros Hflags.
  - apply post_yield; [|reflexivity]. apply post_when; intros Hdone.
    + rewrite Hdone in Hflags. discriminate.
    + cbn [app]. rewrite Htrace, Hdone by reflexivity. reflexivity.
  - apply post_when; intros Hdone.
    + apply post_set. cbn [app].
      rewrite Htrace, Hdone by reflexivity.
      cbn [returned andb]. unfold committed.
      rewrite Hdecoded, Hupd, <- app_assoc. reflexivity.
    + cbn [app]. rewrite Htrace, Hdone by reflexivity. reflexivity.
Qed.

(** [run] on either path: the store is replaced under the same condition,
    and only on the HTTP path. *)
Lemma post_run this w args h :
  post (run this w args) h (fun o s t =>
    s = if given (baseUrl args) && returned o && has_completed t
        then <[resolve_thread w args := committed w args h]> h
        else h).
Proof.
  unfold run.
  apply post_bind, post_resume;
    [|cbn [returned]; rewrite andb_false_r; reflexivity].
  apply post_bind.
  assert (post (trust_check w args) h (fun o h1 t1 =>
            h1 = h /\ t1 = [] /\ (o = Returned tt \/ exists e, o = Threw e))) as Htrust.
  { unfold trust_check.
    destruct (workingDirectory args) as [[|c d]|]; try (apply post_ret; auto).
    destruct (negb (flag _)); [|apply post_ret; auto].
    destruct (negb (existsSync _ _)); [apply post_throw; eauto | apply post_ret; auto]. }
  eapply post_weaken; [exact Htrust|].
  intros o s t (-> & -> & [-> | [e ->]]);
    [|cbn [returned]; rewrite andb_false_r; reflexivity].
  destruct (given (baseUrl args)); cbn [andb app].
  - apply post_runHttp.
  - eapply post_weaken; [apply quiet_runProcess|]. auto.
Qed.

End StoreFacts.

(** ** The claims about the history store *)

Section StoreClaims.
Context `{Platform}.

(** C1. A turn that does not reach [turn.completed] (it fails, is aborted,
    is abandoned by its consumer, or its stream ends without a completion
    marker) leaves the history store, and so the list of every thread, as
    it was before the call: the stored history is replaced only when a
    [turn.completed] event was handed over. *)
Theorem history_kept_without_completion this w args h p :
  (forall usage,
      stringify (turn_completed usage) ∉ yields (trace (run this w args h p))) ->
  store (run this w args h p) = h
  /\ forall threadId, get (store (run this w args h p)) threadId = get h threadId.
Proof.
  intros Hnone.
  assert (store (run this w args h p) = h) as Hstore.
  { rewrite (post_run this w args h p).
    destruct (has_completed (trace (run this w args h p))) eqn:Hc.
    - apply has_completed_yields in Hc as [usage Hin]. destruct (Hnone usage Hin).
    - rewrite andb_false_r. reflexivity. }
  split; [exact Hstore | intros threadId; rewrite Hstore; reflexivity].
Qed.

(** C2 (amended). On the HTTP path a turn that returns after handing over
    [turn.completed] stores, for its thread, the history found before the
    call followed by the new user message and then one assistant message
    per decoded output-item event, in stream order (none, one or several);
    wherever the consumer stops, the store holds either the value it had
    before the call or that complete list, never a part of it. A turn on
    the process path never changes the store. *)
Theorem completed_turn_commits this w args h p :
  let r := run this w args h p in
  let threadId := resolve_thread w args in
  let appended :=
    get h threadId
    ++ {| role := user; text := JStr (input args) |}
    :: assistant_messages (decoded w args h) in
  (store r = h \/ store r = <[threadId := appended]> h)
  /\ (given (baseUrl args) = true -> outcome r = Returned tt ->
      (exists usage, stringify (turn_completed usage) ∈ yields (trace r)) ->
      store r = <[threadId := appended]> h)
  /\ (given (baseUrl args) = false -> store r = h).
Proof.
  cbv zeta. pose proof (post_run this w args h p) as Hrun. cbv beta in Hrun.
  fold (committed w args h).
  split; [|split].
  - rewrite Hrun. destruct (_ && _); auto.
  - intros Hurl Hret Hdone. apply has_completed_yields in Hdone.
    rewrite Hrun, Hurl, Hret, Hdone. reflexivity.
  - intros Hurl. rewrite Hrun, Hurl. reflexivity.
Qed.

End StoreClaims.

Section StoreExamples.
Import AsciiPlatform Scenario.

(** A request that fails with status 500 on a thread with history. *)
Lemma history_kept_without_completion_witness :
  (forall usage,
      stringify (turn_completed usage)
      ∉ yields (trace (run exec (world error500 child0) (remote (Some t1) "again") store1 None)))
  /\ store (run exec (world error500 child0) (remote (Some t1) "again") store1 None) = store1
  /\ forall threadId,
       get (store (run exec (world error500 child0) (remote (Some t1) "again") store1 None))
           threadId = get store1 threadId.
Proof.
  assert (forall usage,
      stringify (turn_completed usage)
      ∉ yields (trace (run exec (world error500 child0) (remote (Some t1) "again") store1 None)))
    as Hnone.
  { intros usage Hin. vm_compute in Hin.
    repeat (apply elem_of_cons in Hin as [Hin|Hin]; [discriminate|]).
    inversion Hin. }
  split; [exact Hnone|].
  apply (history_kept_without_completion exec (world error500 child0)
           (remote (Some t1) "again") store1 None Hnone).
Defined.

(** A completed turn with two output items on a thread with history. *)
Lemma completed_turn_commits_witness :
  let r := run exec (world (ok200 two_items) child0)
             (remote (Some t1) "second input") store1 None in
  given (baseUrl (remote (Some t1) "second input")) = true
  /\ outcome r = Returned tt
  /\ (exists usage, stringify (turn_completed usage) ∈ yields (trace r))
  /\ store r =
     <[t1 := [said user "first input"; said assistant "First response";
              said user "second input"; said assistant "Let me look.";
              said assistant "Done."]]> store1.
Proof.
  cbv zeta.
  assert (given (baseUrl (remote (Some t1) "second input")) = true) as Hurl
    by reflexivity.
  assert (outcome (run exec (world (ok200 two_items) child0)
                     (remote (Some t1) "second input") store1 None) = Returned tt)
    as Hret by (vm_compute; reflexivity).
  assert (exists usage,
            stringify (turn_completed usage)
            ∈ yields (trace (run exec (world (ok200 two_items) child0)
                               (remote (Some t1) "second input") store1 None)))
    as Hdone.
  { exists {| input_tokens := Integer 42; cached_input_tokens := Integer 12;
              output_tokens := Integer 5 |}.
    vm_compute. repeat constructor. }
  split; [exact Hurl | split; [exact Hret | split; [exact Hdone|]]].
  rewrite (proj1 (proj2 (completed_turn_commits exec (world (ok200 two_items) child0)
                           (remote (Some t1) "second input") store1 None))
             Hurl Hret Hdone).
  vm_compute. reflexivity.
Defined.

(** C2, as stated, fails: a completed HTTP turn with two output items
    appends two assistant messages, and a successful turn on the process
    path appends nothing. *)
Lemma one_assistant_message_counterexample :
  let http := run exec (world (ok200 two_items) child0) (remote (Some t1) "second input") store1 None in
  let completion := js "{'type':'turn.completed','usage':{'input_tokens':1,'cached_input_tokens':0,'output_tokens':1}}" in
  let process :=
    run exec (world error500 {| stdin := true; stdinError := None;
                                stdout := Some [completion];
                                stderr := Some []; spawnError := None;
                                exitCode := Some 0%Z; exitHeard := true |})
        (local (Some t1) "second input") store1 None in
  (outcome http = Returned tt
   /\ has_completed (trace http) = true
   /\ ~ exists produced,
        (length produced <= 1)%nat
        /\ get (store http) t1 = get store1 t1 ++ said user "second input" :: produced)
  /\ (outcome process = Returned tt
      /\ yields (trace process) = [line completion]
      /\ get (store process) t1 = get store1 t1).
Proof.
  cbv zeta. split; [split; [|split] | split; [|split]];
    try (vm_compute; reflexivity).
  intros (produced & Hlen & Heq). vm_compute in Heq.
  injection Heq as <-. simpl in Hlen. lia.
Qed.

End StoreExamples.

(** ** Runs with a given consumer *)

Lemma at_ret {A} (a : A) h p Q : Q (Returned a) h p [] -> post_at (ret a) h p Q.
Proof. intros HQ. exact HQ. Qed.

Lemma at_throw {A} e h p (Q : Outcome A -> _) :
  Q (Threw e) h p [] -> post_at (throw e) h p Q.
Proof. intros HQ. exact HQ. Qed.

Lemma at_act a h p Q : Q (Returned tt) h p [a] -> post_at (act a) h p Q.
Proof. intros HQ. exact HQ. Qed.

Lemma at_get threadId h p Q :
  Q (Returned (get h threadId)) h p [] -> post_at (histories_get threadId) h p Q.
Proof. intros HQ. exact HQ. Qed.

Lemma at_set threadId messages h p Q :
  Q (Returned tt) (<[threadId := messages]> h) p [] ->
  post_at (histories_set threadId messages) h p Q.
Proof. intros HQ. exact HQ. Qed.

Lemma at_bind {A B} (m : Gen A) (k : A -> Gen B) h p Q :
  post_at m h p (fun o h1 p1 t1 =>
    match o with
    | Returned a => post_at (k a) h1 p1 (fun o' h2 p2 t2 => Q o' h2 p2 (t1 ++ t2))
    | Threw e => Q (Threw e) h1 p1 t1
    | Abandoned => Q Abandoned h1 p1 t1
    | Unsettled f => Q (Unsettled f) h1 p1 t1
    end) ->
  post_at (bind m k) h p Q.
Proof.
  unfold post_at, bind. intros Hm.
  destruct (outcome (m h p)); simpl; exact Hm.
Qed.

Lemma at_weaken {A} (m : Gen A) h p (Q Q' : Outcome A -> _) :
  post_at m h p Q -> (forall o s q t, Q o s q t -> Q' o s q t) -> post_at m h p Q'.
Proof. intros Hm HQ. apply HQ, Hm. Qed.

(** A [yield] to a consumer that pulls again. *)
Lemma at_yield y h p Q :
  p <> Some O -> Q (Returned tt) h (next p) [AYield y] -> post_at (yield y) h p Q.
Proof.
  intros Hp HQ. unfold yield. apply at_bind, at_act.
  destruct p as [[|n]|]; [contradiction | exact HQ | exact HQ].
Qed.

Lemma at_any {A} (m : Gen A) h p (Q : Outcome A -> _) :
  (forall o s q t, Q o s q t) -> post_at m h p Q.
Proof. intros HQ. apply HQ. Qed.

Lemma yields_app t1 t2 : yields (t1 ++ t2) = yields t1 ++ yields t2.
Proof.
  induction t1 as [|a t1 IH]; [reflexivity|].
  destruct a; simpl; rewrite IH; reflexivity.
Qed.


Section DrainFacts.
Context `{Platform}.

Lemma at_preflight args h p Q :
  cancelled_on_entry args = false ->
  Q (Returned tt) h p [] -> post_at (preflight args) h p Q.
Proof.
  unfold cancelled_on_entry, preflight, is_aborted. intros Hc HQ.
  destruct (signal args) as [sig|]; [|exact HQ].
  apply orb_false_iff in Hc as [-> ->]. exact HQ.
Qed.

Lemma at_load_schema w args schema h p Q :
  schema_of w args = inl schema ->
  Q (Returned schema) h p [] -> post_at (load_schema w args) h p Q.
Proof. unfold load_schema. intros -> HQ. exact HQ. Qed.

Lemma at_await_fetch w req h p Q :
  match fetch w req with
  | Resolved r => Q (Returned r) h p [AFetch req]
  | Rejected e => Q (Threw e) h p [AFetch req]
  end ->
  post_at (await_fetch w req) h p Q.
Proof.
  intros HQ. unfold await_fetch. apply at_bind, at_act.
  destruct (fetch w req); exact HQ.
Qed.

Lemma at_when (b : bool) m h p Q :
  (b = true -> post_at m h p Q) -> (b = false -> Q (Returned tt) h p []) ->
  post_at (when b m) h p Q.
Proof.
  intros Ht Hf. destruct b; [apply Ht; reflexivity | apply at_ret, Hf; reflexivity].
Qed.







End DrainFacts.

(** ** The claims about the HTTP path *)

Section HttpClaims.
Context `{Platform}.

Lemma at_yield_then {B} y (k : Gen B) h p (Q : Outcome B -> _) :
  (forall o s q t, Q o s q (AYield y :: t)) -> post_at (yield y >> k) h p Q.
Proof.
  intros HQ. unfold post_at, yield, bind, act, resume.
  destruct p as [[|n]|]; cbn; try apply HQ;
    destruct (outcome (k _ _)); cbn; apply HQ.
Qed.


(** The run of [runHttp] up to the answer of the endpoint. *)
Lemma at_request w args h p schema Q :
  cancelled_on_entry args = false ->
  schema_of w args = inl schema ->
  (forall req, req = request (get h (resolve_thread w args)) schema args ->
     match fetch w req with
     | Resolved r =>
         post_at
           (yield (stringify (thread_started (resolve_thread w args))) >>
            yield (stringify turn_started) >>
            if negb (ok r) then yield (stringify (request_failed r))
            else
              match body r with
              | None => yield (stringify (disconnected (u "missing response body")))
              | Some reads =>
                  let '(events, err) := parseSse reads (signal args) in
                  let* ls :=
                    consume args events
                      {| updatedHistory :=
                           get h (resolve_thread w args)
                           ++ [{| role := user; text := JStr (input args) |}];
                         assistantCount := 0%nat;
                         completed := false; failed := false |} in
                  match err with Some e => throw e | None => ret tt end >>
                  when (negb (completed ls) && negb (failed ls))
                    (yield (stringify (disconnected (u "missing completion event")))) >>
                  when (completed ls)
                    (histories_set (resolve_thread w args) (updatedHistory ls))
              end) h p (fun o s q t => Q o s q (AFetch req :: t))
     | Rejected e => Q (Threw e) h p [AFetch req]
     end) ->
  post_at (runHttp w args) h p Q.
Proof.
  intros Hentry Hschema HQ. unfold runHttp.
  apply at_bind, at_preflight; [exact Hentry|].
  apply at_bind, at_get.
  apply at_bind, (at_load_schema _ _ _ _ _ _ Hschema).
  apply at_bind, at_await_fetch.
  specialize (HQ _ eq_refl).
  destruct (fetch w _) as [r|e]; exact HQ.
Qed.

(** C6 (amended). On the HTTP path, when the turn is not cancelled on entry
    and the endpoint answers, the trace starts with the awaited fetch,
    followed by [thread.started] with the resolved thread id and then
    [turn.started]: the two events are the first of the stream for a
    consumer that pulls at least twice, and they are handed over after the
    response has arrived, whatever its status and body. When the fetch is
    rejected the turn throws and hands over no event. *)
Theorem first_events_follow_the_response w args h p schema :
  cancelled_on_entry args = false ->
  schema_of w args = inl schema ->
  let req := request (get h (resolve_thread w args)) schema args in
  let turn := runHttp w args h p in
  match fetch w req with
  | Resolved _ =>
      p <> Some O ->
      exists rest,
        trace turn =
        AFetch req
        :: AYield (stringify (thread_started (resolve_thread w args)))
        :: AYield (stringify turn_started) :: rest
  | Rejected e => outcome turn = Threw e /\ yields (trace turn) = []
  end.
Proof.
  intros Hentry Hschema req turn.
  destruct (fetch w req) as [r|e] eqn:Hfetch.
  - intros Hp. subst turn.
    apply (at_request w args h p schema
             (fun _ _ _ t => exists rest, t = AFetch req :: _ :: _ :: rest) Hentry Hschema).
    intros ? ->. fold req. rewrite Hfetch.
    apply at_bind, at_yield; [exact Hp|].
    apply at_yield_then. intros o s q t. exists t. reflexivity.
  - subst turn.
    apply (at_request w args h p schema
             (fun o _ _ t => o = Threw e /\ yields t = []) Hentry Hschema).
    intros ? ->. fold req. rewrite Hfetch. split; reflexivity.
Qed.

(** C7. The [input] of the request body is the list stored for the thread
    of the call, in order, an assistant message tagged [output_text] and a
    user message tagged [input_text], followed by the new user turn. The
    thread is [args.threadId] when one is passed, whatever is stored for
    other threads, and the fresh [thread_<uuid>] otherwise. So the request
    of a second turn on the thread of a completed first turn carries what
    was stored before, the first input, the text of every assistant
    message of the first turn, unchanged and in order, and then the second
    input. *)
Theorem request_replays_history :
  let tagged := fun m : ConversationMessage =>
    {| entry_role := role m;
       content :=
         [{| part_type := match role m with
                          | assistant => u "output_text"
                          | user => u "input_text"
                          end;
             part_text := text m |}] |} in
  let asked := fun text : jsstring =>
    {| entry_role := user;
       content := [{| part_type := u "input_text"; part_text := JStr text |}] |} in
  (forall w args h p schema t,
      threadId args = Some t ->
      cancelled_on_entry args = false ->
      schema_of w args = inl schema ->
      exists req rest,
        trace (runHttp w args h p) = AFetch req :: rest
        /\ body_input req = map tagged (default [] (h !! t)) ++ [asked (input args)])
  /\ (forall w args h p schema,
      threadId args = None ->
      cancelled_on_entry args = false ->
      schema_of w args = inl schema ->
      exists req rest,
        trace (runHttp w args h p) = AFetch req :: rest
        /\ body_input req =
           map tagged (default [] (h !! (u "thread_" ++ randomUUID w)))
           ++ [asked (input args)])
  /\ (forall w1 args1 h p1 w2 args2 p2 schema2 t,
      threadId args1 = Some t
      \/ threadId args1 = None /\ t = u "thread_" ++ randomUUID w1 ->
      let first := runHttp w1 args1 h p1 in
      outcome first = Returned tt ->
      (exists usage, stringify (turn_completed usage) ∈ yields (trace first)) ->
      threadId args2 = Some t ->
      cancelled_on_entry args2 = false ->
      schema_of w2 args2 = inl schema2 ->
      exists req rest,
        trace (runHttp w2 args2 (store first) p2) = AFetch req :: rest
        /\ body_input req =
           map tagged (default [] (h !! t))
           ++ [asked (input args1)]
           ++ map tagged (assistant_messages (decoded w1 args1 h))
           ++ [asked (input args2)]
        /\ forall event,
             event ∈ decoded w1 args1 h ->
             is_string "response.output_item.done" (prop "type" (Some event)) = true ->
             {| entry_role := assistant;
                content := [{| part_type := u "output_text";
                               part_text := item_text_of (prop "item" (Some event)) |}] |}
             ∈ body_input req).
Proof.
  intros tagged asked.
  assert (forall w args h p schema,
      cancelled_on_entry args = false ->
      schema_of w args = inl schema ->
      exists rest,
        trace (runHttp w args h p) =
        AFetch (request (get h (resolve_thread w args)) schema args) :: rest) as Hreq.
  { intros w args h p schema Hentry Hschema.
    apply (at_request w args h p schema
             (fun _ _ _ t => exists rest, t = AFetch _ :: rest) Hentry Hschema).
    intros ? ->. destruct (fetch w _); [|eexists; reflexivity].
    apply at_any. intros o s q t. exists t. reflexivity. }
  split; [|split].
  - intros w args h p schema t Hthread Hentry Hschema.
    destruct (Hreq w args h p schema Hentry Hschema) as [rest Htrace].
    eexists _, rest. split; [exact Htrace|].
    unfold resolve_thread. rewrite Hthread. reflexivity.
  - intros w args h p schema Hthread Hentry Hschema.
    destruct (Hreq w args h p schema Hentry Hschema) as [rest Htrace].
    eexists _, rest. split; [exact Htrace|].
    unfold resolve_thread. rewrite Hthread. reflexivity.
  - intros w1 args1 h p1 w2 args2 p2 schema2 t Hfirst first Hret Hdone
      Hthread Hentry Hschema.
    destruct (Hreq w2 args2 (store first) p2 schema2 Hentry Hschema) as [rest Htrace].
    assert (resolve_thread w1 args1 = t) as Ht1.
    { unfold resolve_thread. destruct Hfirst as [-> | [-> ->]]; reflexivity. }
    assert (resolve_thread w2 args2 = t) as Ht2.
    { unfold resolve_thread. rewrite Hthread. reflexivity. }
    assert (body_input (request (get (store first) (resolve_thread w2 args2)) schema2 args2)
            = map tagged (default [] (h !! t))
              ++ [asked (input args1)]
              ++ map tagged (assistant_messages (decoded w1 args1 h))
              ++ [asked (input args2)]) as Hbody.
    { apply has_completed_yields in Hdone.
      subst first. rewrite (post_runHttp w1 args1 h p1), Hret, Hdone, Ht1, Ht2.
      cbn [returned andb]. unfold get at 1. rewrite lookup_insert_eq. cbn [default].
      unfold committed. rewrite Ht1.
      unfold request. cbn [body_input]. unfold request_input.
      unfold id. rewrite map_app, map_cons, <- app_assoc. reflexivity. }
    eexists _, rest. split; [exact Htrace|]. split; [exact Hbody|].
    intros event Hev Hitem. rewrite Hbody.
    apply elem_of_app. right. apply elem_of_app. right. apply elem_of_app. left.
    apply (list_elem_of_fmap_2 tagged _
             {| role := assistant; text := item_text_of (prop "item" (Some event)) |}).
    unfold assistant_messages. apply list_elem_of_omap.
    exists event. rewrite Hitem. split; [exact Hev | reflexivity].
Qed.


End HttpClaims.

(** ** The claims about the process path and the trust check *)

Section ProcessClaims.
Context `{Platform}.

Lemma at_resume h p Q :
  p <> Some O -> Q (Returned tt) h (next p) [] -> post_at resume h p Q.
Proof.
  intros Hp HQ. destruct p as [[|n]|]; [contradiction | exact HQ | exact HQ].
Qed.

Lemma trust_check_passes w args :
  untrusted w args = false -> trust_check w args = ret tt.
Proof.
  unfold untrusted, trust_check.
  destruct (workingDirectory args) as [[|c d]|]; try reflexivity.
  destruct (negb (flag _)); [|reflexivity].
  destruct (negb (existsSync _ _)); [discriminate | reflexivity].
Qed.

Lemma trust_check_fails w args wd :
  workingDirectory args = Some wd -> wd <> [] ->
  flag (skipGitRepoCheck args) = false ->
  existsSync w (path_join wd (u ".git")) = false ->
  trust_check w args = throw (u "Not inside a trusted directory").
Proof.
  unfold trust_check. intros -> Hwd -> Hgit.
  destruct wd as [|c d]; [contradiction|]. rewrite Hgit. reflexivity.
Qed.

Lemma drain_yield_each vs h :
  post_at (yield_each vs) h None (fun o s p t =>
    o = Returned tt /\ s = h /\ p = None /\ t = map AYield vs).
Proof.
  induction vs as [|v vs IH]; cbn [yield_each map].
  - apply at_ret. auto.
  - apply at_bind, at_yield; [discriminate|].
    eapply at_weaken; [apply IH|].
    intros o s q t (-> & -> & -> & ->). auto.
Qed.

Lemma yields_map_AYield vs : yields (map AYield vs) = vs.
Proof. induction vs as [|v vs IH]; [reflexivity|]. cbn. rewrite IH. reflexivity. Qed.

(** C5. On the process path, with a child that has its channels, whose
    stdin raises no ["error"] event and that emits no ["error"] event
    itself, a consumer that drains the stream is handed exactly the lines
    of stdout, in order. What follows depends on when the child emits
    ["exit"]. [run] registers its listener only after the last line has
    been handed over: when the event comes after that, an exit code 0
    completes the stream without error and any other exit code raises an
    error whose message contains the code and the text of all the bytes
    received on stderr; when the event has come before, it is lost and
    the stream neither completes nor raises, whatever the exit code. *)
Theorem process_turn_streams_lines this w args h lines :
  given (baseUrl args) = false ->
  untrusted w args = false ->
  let child := spawn w (executablePath this) (commandArgs args) (buildEnv this w args) in
  stdin child = true ->
  stdinError child = None ->
  stdout child = Some lines ->
  spawnError child = None ->
  let r := run this w args h None in
  yields (trace r) = map line lines
  /\ (exitHeard child = true ->
      (exitCode child = Some 0%Z -> outcome r = Returned tt)
      /\ (forall code, exitCode child = Some code -> code <> 0%Z ->
          exists message,
            outcome r = Threw message
            /\ contains (decimal code) message
            /\ contains (Buffer_toString (concat (default [] (stderr child)))) message))
  /\ (exitHeard child = false -> outcome r = Unsettled NeverSettles).
Proof.
  intros Hurl Htrust child Hin Hpipe Hout Herr r. subst r.
  enough (post_at (run this w args) h None (fun o _ _ t =>
            yields t = map line lines
            /\ (exitHeard child = true ->
                (exitCode child = Some 0%Z -> o = Returned tt)
                /\ (forall code, exitCode child = Some code -> code <> 0%Z ->
                    exists message,
                      o = Threw message
                      /\ contains (decimal code) message
                      /\ contains (Buffer_toString (concat (default [] (stderr child))))
                           message))
            /\ (exitHeard child = false -> o = Unsettled NeverSettles))) as HQ by exact HQ.
  unfold run. rewrite Hurl, (trust_check_passes _ _ Htrust).
  apply at_bind, at_resume; [discriminate|].
  apply at_bind, at_ret.
  unfold runProcess, read_lines, await_exit. fold child.
  rewrite Hin, Hout, Herr, Hpipe. cbn [negb].
  apply at_bind, at_act. apply at_bind, at_act. apply at_bind.
  eapply at_weaken; [apply drain_yield_each|].
  intros o s q t (-> & -> & -> & ->).
  assert (forall t', yields ([] ++ [] ++ [ASpawn (executablePath this) (commandArgs args)
                                             (buildEnv this w args)]
                             ++ [AWrite (input args)] ++ map AYield (map line lines) ++ t')
                     = map line lines ++ yields t') as Hyields.
  { intros t'. cbn [app yields]. rewrite yields_app, yields_map_AYield. reflexivity. }
  destruct (exitHeard child) eqn:Hheard.
  - destruct (exitCode child) as [[|c|c]|] eqn:Hcode;
      [apply at_ret | apply at_throw..]; rewrite Hyields, app_nil_r;
      (split; [reflexivity|]); (split; [|discriminate]); intros _;
      (split; [first [reflexivity | discriminate]|]); intros code Hc Hne;
      try (injection Hc as <-); try contradiction; try discriminate Hc;
      (eexists; split; [reflexivity|]); unfold exit_message;
      (split; [eexists _, _; reflexivity
              | eexists _, []; rewrite app_nil_r, !app_assoc; reflexivity]).
  - unfold post_at, unsettled. cbn [outcome trace]. rewrite Hyields, app_nil_r.
    split; [reflexivity|]. split; [discriminate | reflexivity].
Qed.

(** C9. With a working directory that has no [.git] entry and without the
    skip flag, the call fails on the first pull with the error
    ["Not inside a trusted directory"]: nothing was done before it, so no
    subprocess is started, and the store is untouched. *)
Theorem untrusted_directory_fails this w args h p wd :
  p <> Some O ->
  workingDirectory args = Some wd -> wd <> [] ->
  flag (skipGitRepoCheck args) = false ->
  existsSync w (path_join wd (u ".git")) = false ->
  let r := run this w args h p in
  outcome r = Threw (u "Not inside a trusted directory")
  /\ trace r = []
  /\ (forall exe argv env, ASpawn exe argv env ∉ trace r)
  /\ store r = h.
Proof.
  intros Hp Hwd Hne Hskip Hgit r. subst r.
  assert (trace (run this w args h p) = []
          /\ outcome (run this w args h p) = Threw (u "Not inside a trusted directory")
          /\ store (run this w args h p) = h) as (Ht & Ho & Hs).
  { enough (post_at (run this w args) h p (fun o s _ t =>
              t = [] /\ o = Threw (u "Not inside a trusted directory") /\ s = h))
      as HQ by exact HQ.
    unfold run. rewrite (trust_check_fails w args wd Hwd Hne Hskip Hgit).
    apply at_bind, at_resume; [exact Hp|].
    apply at_bind, at_throw. auto. }
  rewrite Ht. split; [exact Ho | split; [reflexivity | split; [|exact Hs]]].
  intros exe argv env Hin. inversion Hin.
Qed.

(** C10. The trust check runs before the transport is chosen: with a remote
    endpoint configured, a working directory without [.git] and no skip
    flag, the call raises the untrusted-directory error and no HTTP request
    is issued (and no event handed over). *)
Theorem trust_check_precedes_transport this w args h p wd :
  p <> Some O ->
  given (baseUrl args) = true ->
  workingDirectory args = Some wd -> wd <> [] ->
  flag (skipGitRepoCheck args) = false ->
  existsSync w (path_join wd (u ".git")) = false ->
  let r := run this w args h p in
  outcome r = Threw (u "Not inside a trusted directory")
  /\ (forall req, AFetch req ∉ trace r)
  /\ yields (trace r) = [].
Proof.
  intros Hp _ Hwd Hne Hskip Hgit r. subst r.
  enough (post_at (run this w args) h p (fun o _ _ t =>
            o = Threw (u "Not inside a trusted directory")
            /\ (forall req, AFetch req ∉ t) /\ yields t = [])) as HQ by exact HQ.
  unfold run. rewrite (trust_check_fails w args wd Hwd Hne Hskip Hgit).
  apply at_bind, at_resume; [exact Hp|].
  apply at_bind, at_throw.
  split; [reflexivity | split; [|reflexivity]].
  intros req Hin. inversion Hin.
Qed.

End ProcessClaims.

(** ** The claim about usage *)

Section UsageClaims.
Context `{Platform}.




End UsageClaims.

(** ** The claims on example turns *)

Section Examples.
Import AsciiPlatform Scenario.

Lemma ascii_streaming : streaming.
Proof.
  split; [reflexivity|].
  intros st a b. cbn. unfold text_of. rewrite map_app. reflexivity.
Qed.

Lemma parseSse_chunk_invariant_witness :
  streaming
  /\ never_aborted None
  /\ parseSse (map Chunk cut_stream) None = parseSse [Chunk (concat cut_stream)] None
  /\ forall ev, ev ∈ (parseSse (map Chunk cut_stream) None).1 ->
       exists pre part post d,
         decode_all decoder_init cut_stream = pre ++ part ++ [LF; LF] ++ post
         /\ dataLine part = Some d /\ JSON_parse d = inl ev.
Proof.
  assert (never_aborted None) as Hsig by (intros n; reflexivity).
  split; [exact ascii_streaming | split; [exact Hsig|]].
  exact (parseSse_chunk_invariant ascii_streaming None cut_stream Hsig).
Defined.



Lemma first_events_follow_the_response_witness :
  let w := world (ok200 hello) child0 in
  let args := remote None "Hello, world!" in
  cancelled_on_entry args = false
  /\ schema_of w args = inl None
  /\ exists rest,
       trace (runHttp w args ∅ None)
       = AFetch (request [] None args)
         :: AYield (stringify (thread_started t1))
         :: AYield (stringify turn_started) :: rest.
Proof.
  cbv zeta. split; [reflexivity | split; [reflexivity|]].
  exact (first_events_follow_the_response (world (ok200 hello) child0)
           (remote None "Hello, world!") ∅ None None eq_refl eq_refl
           ltac:(discriminate)).
Defined.

(** C6, as stated, fails: the two events are handed over after the fetch
    has been awaited, not before any response is available; and a turn
    whose fetch is rejected has no events at all. *)
Lemma events_before_response_counterexample :
  let turn := runHttp (world (ok200 hello) child0) (remote None "Hello, world!") ∅ None in
  let refused :=
    runHttp (world (Rejected (u "fetch failed")) child0)
      (remote None "Hello, world!") ∅ None in
  (exists rest,
     trace turn
     = AFetch (request [] None (remote None "Hello, world!"))
       :: AYield (stringify (thread_started t1)) :: rest
     /\ forall req, AFetch req ∉ rest)
  /\ ~ before_response (stringify (thread_started t1)) (trace turn)
  /\ ~ before_response (stringify turn_started) (trace turn)
  /\ outcome refused = Threw (u "fetch failed")
  /\ yields (trace refused) = [].
Proof.
  cbv zeta.
  assert (forall y t rest req0,
             t = AFetch req0 :: rest -> (forall req, AFetch req ∉ rest) ->
             ~ before_response y t) as Hnot.
  { intros y t rest req0 -> Hrest (pre & mid & req & post & Heq).
    destruct pre as [|a pre]; [discriminate Heq|].
    injection Heq as _ ->. apply (Hrest req).
    apply elem_of_app. right. right. apply elem_of_app. right. left. }
  assert (exists rest,
     trace (runHttp (world (ok200 hello) child0) (remote None "Hello, world!") ∅ None)
     = AFetch (request [] None (remote None "Hello, world!"))
       :: AYield (stringify (thread_started t1)) :: rest
     /\ forall req, AFetch req ∉ rest) as (rest & Htrace & Hrest).
  { eexists. split; [vm_compute; reflexivity|].
    intros req Hin.
    repeat (apply elem_of_cons in Hin as [Hin|Hin]; [discriminate Hin|]).
    inversion Hin. }
  split; [exists rest; split; assumption|].
  split; [|split; [|split; vm_compute; reflexivity]].
  - apply (Hnot _ _ _ _ Htrace). intros req Hin.
    apply elem_of_cons in Hin as [Hin|Hin]; [discriminate | exact (Hrest req Hin)].
  - apply (Hnot _ _ _ _ Htrace). intros req Hin.
    apply elem_of_cons in Hin as [Hin|Hin]; [discriminate | exact (Hrest req Hin)].
Qed.

(** The two turns of the test "sends previous items when run is called
    twice", and a turn on one of two stored threads. *)
Lemma request_replays_history_witness :
  let w1 := world (ok200 [sse [assistantMessage "First response"; responseCompleted]]) child0 in
  let w2 := world (ok200 [sse [assistantMessage "Second response"; responseCompleted]]) child0 in
  let first := runHttp w1 (remote None "first input") ∅ None in
  (outcome first = Returned tt
   /\ (exists usage, stringify (turn_completed usage) ∈ yields (trace first))
   /\ exists req rest,
        trace (runHttp w2 (remote (Some t1) "second input") (store first) None)
        = AFetch req :: rest
        /\ body_input req
           = [entry user "input_text" "first input";
              entry assistant "output_text" "First response";
              entry user "input_text" "second input"])
  /\ exists req rest,
       trace (runHttp w2 (remote (Some t1) "again")
                (<[u "thread_other" := [said user "elsewhere"]]> store1) None)
       = AFetch req :: rest
       /\ body_input req
          = [entry user "input_text" "first input";
             entry assistant "output_text" "First response";
             entry user "input_text" "again"].
Proof.
  cbv zeta.
  assert (outcome (runHttp (world (ok200 [sse [assistantMessage "First response";
                                                responseCompleted]]) child0)
                     (remote None "first input") ∅ None) = Returned tt) as Hret
    by (vm_compute; reflexivity).
  assert (exists usage,
            stringify (turn_completed usage)
            ∈ yields (trace (runHttp (world (ok200 [sse [assistantMessage "First response";
                                                          responseCompleted]]) child0)
                               (remote None "first input") ∅ None))) as Hdone.
  { exists {| input_tokens := Integer 42; cached_input_tokens := Integer 12;
              output_tokens := Integer 5 |}.
    vm_compute. repeat constructor. }
  split; [split; [exact Hret | split; [exact Hdone|]]|].
  - destruct (proj2 (proj2 request_replays_history)
                (world (ok200 [sse [assistantMessage "First response"; responseCompleted]])
                   child0)
                (remote None "first input") ∅ None
                (world (ok200 [sse [assistantMessage "Second response"; responseCompleted]])
                   child0)
                (remote (Some t1) "second input") None None t1
                (or_intror (conj eq_refl eq_refl)) Hret Hdone eq_refl eq_refl eq_refl)
      as (req & rest & Htrace & Hbody & _).
    exists req, rest. split; [exact Htrace|]. rewrite Hbody. vm_compute. reflexivity.
  - destruct (proj1 request_replays_history
                (world (ok200 [sse [assistantMessage "Second response"; responseCompleted]])
                   child0)
                (remote (Some t1) "again")
                (<[u "thread_other" := [said user "elsewhere"]]> store1) None None t1
                eq_refl eq_refl eq_refl)
      as (req & rest & Htrace & Hbody).
    exists req, rest. split; [exact Htrace|]. rewrite Hbody. vm_compute. reflexivity.
Defined.



(** A child that prints two lines and exits with code 0 before its lines
    have been read: the lines are handed over, and the stream never
    completes. A child that exits with code 2 after its lines have been
    read raises the error of the exit code. *)
Lemma process_turn_streams_lines_witness :
  let early := run exec (world error500 early_exit) (local None "hello") ∅ None in
  let late := run exec (world error500 child2) (local None "hello") ∅ None in
  given (baseUrl (local None "hello")) = false
  /\ untrusted (world error500 early_exit) (local None "hello") = false
  /\ (exitCode early_exit = Some 0%Z
      /\ exitHeard early_exit = false
      /\ yields (trace early)
         = [line (js "{'type':'thread.started','thread_id':'t'}");
            line (js "{'type':'turn.started'}")]
      /\ outcome early = Unsettled NeverSettles)
  /\ (exitHeard child2 = true
      /\ yields (trace late)
         = [line (js "{'type':'thread.started','thread_id':'t'}");
            line (js "{'type':'turn.started'}")]
      /\ exists message,
           outcome late = Threw message
           /\ contains (u "2") message
           /\ contains (u "fatal: no such model") message).
Proof.
  cbv zeta. split; [reflexivity | split; [reflexivity|]].
  destruct (process_turn_streams_lines exec (world error500 early_exit)
              (local None "hello") ∅ _ eq_refl eq_refl eq_refl eq_refl eq_refl eq_refl)
    as (Hlines & _ & Hlost).
  destruct (process_turn_streams_lines exec (world error500 child2)
              (local None "hello") ∅ _ eq_refl eq_refl eq_refl eq_refl eq_refl eq_refl)
    as (Hlines2 & Hexit & _).
  split.
  - split; [reflexivity | split; [reflexivity | split; [exact Hlines|]]].
    exact (Hlost eq_refl).
  - split; [reflexivity | split; [exact Hlines2|]].
    destruct (proj2 (Hexit eq_refl) 2%Z eq_refl ltac:(discriminate))
      as (message & Hthrew & Hcode & Herr).
    exists message. split; [exact Hthrew | split; [exact Hcode | exact Herr]].
Defined.

Lemma untrusted_directory_fails_witness :
  let args := in_workdir (local None "use custom working directory") in
  let r := run exec (world error500 child0) args store1 None in
  None <> Some O
  /\ workingDirectory args = Some workdir /\ workdir <> []
  /\ flag (skipGitRepoCheck args) = false
  /\ existsSync (world error500 child0) (path_join workdir (u ".git")) = false
  /\ outcome r = Threw (u "Not inside a trusted directory")
  /\ trace r = []
  /\ (forall exe argv env, ASpawn exe argv env ∉ trace r)
  /\ store r = store1.
Proof.
  cbv zeta.
  assert (workdir <> []) as Hne by (vm_compute; discriminate).
  split; [discriminate | split; [reflexivity | split; [exact Hne |
    split; [reflexivity | split; [reflexivity|]]]]].
  exact (untrusted_directory_fails exec (world error500 child0)
           (in_workdir (local None "use custom working directory")) store1 None workdir
           ltac:(discriminate) eq_refl Hne eq_refl eq_refl).
Defined.

(** The turn of the test "throws if working directory is not git and no
    skipGitRepoCheck is provided". *)
Lemma trust_check_precedes_transport_witness :
  let args := in_workdir (remote None "use custom working directory") in
  let r := run exec (world (ok200 hello) child0) args ∅ None in
  None <> Some O
  /\ given (baseUrl args) = true
  /\ workingDirectory args = Some workdir /\ workdir <> []
  /\ flag (skipGitRepoCheck args) = false
  /\ existsSync (world (ok200 hello) child0) (path_join workdir (u ".git")) = false
  /\ outcome r = Threw (u "Not inside a trusted directory")
  /\ (forall req, AFetch req ∉ trace r)
  /\ yields (trace r) = [].
Proof.
  cbv zeta.
  assert (workdir <> []) as Hne by (vm_compute; discriminate).
  split; [discriminate | split; [reflexivity | split; [reflexivity | split; [exact Hne |
    split; [reflexivity | split; [reflexivity|]]]]]].
  exact (trust_check_precedes_transport exec (world (ok200 hello) child0)
           (in_workdir (remote None "use custom working directory")) ∅ None workdir
           ltac:(discriminate) eq_refl eq_refl Hne eq_refl eq_refl).
Defined.

End Examples.

(** * Further properties *)

(** ** Segments, lines and the text buffer *)




Lemma split_lines_first l rest :
  LF ∉ l -> split_lines (l ++ LF :: rest) = l :: split_lines rest.
Proof.
  induction l as [|c l IH]; intros Hl.
  - reflexivity.
  - cbn [app split_lines].
    destruct (N.eqb_spec c LF) as [-> | Hc]; [destruct Hl; left|].
    rewrite IH; [reflexivity|]. intros Hin. apply Hl. right. exact Hin.
Qed.

Lemma split_lines_single l : LF ∉ l -> split_lines l = [l].
Proof.
  induction l as [|c l IH]; intros Hl; [reflexivity|].
  cbn [split_lines].
  destruct (N.eqb_spec c LF) as [-> | Hc]; [destruct Hl; left|].
  rewrite IH; [reflexivity|]. intros Hin. apply Hl. right. exact Hin.
Qed.

(** X2. Only the first [data:] line of a segment is used. A segment that
    is the one line [data:] followed by [a] has the data [a], trimmed, and
    so has a segment in which that line comes first, whatever lines follow;
    a first line that does not start with [data:] is skipped; and a segment
    of one line without [data:] has no data. Line by line, the four cases
    determine the data of every segment. *)
Theorem dataLine_takes_the_first_data_line :
  (forall a, LF ∉ a -> dataLine (u "data:" ++ a) = Some (trim a))
  /\ (forall a rest, LF ∉ a ->
      dataLine (u "data:" ++ a ++ LF :: rest) = Some (trim a))
  /\ (forall l rest, LF ∉ l -> startsWith (u "data:") l = false ->
      dataLine (l ++ LF :: rest) = dataLine rest)
  /\ (forall l, LF ∉ l -> startsWith (u "data:") l = false -> dataLine l = None).
Proof.
  assert (forall a, LF ∉ a -> LF ∉ u "data:" ++ a) as Hdata.
  { intros a Ha Hin. apply elem_of_app in Hin as [Hin|Hin]; [|exact (Ha Hin)].
    vm_compute in Hin.
    repeat (apply elem_of_cons in Hin as [Hin|Hin]; [discriminate Hin|]).
    inversion Hin. }
  split; [|split; [|split]].
  - intros a Ha. unfold dataLine.
    rewrite split_lines_single by exact (Hdata a Ha). reflexivity.
  - intros a rest Ha. unfold dataLine.
    rewrite (app_assoc (u "data:") a), split_lines_first by exact (Hdata a Ha).
    reflexivity.
  - intros l rest Hl Hnot. unfold dataLine.
    rewrite split_lines_first by exact Hl. cbn [List.find]. rewrite Hnot. reflexivity.
  - intros l Hl Hnot. unfold dataLine.
    rewrite split_lines_single by exact Hl. cbn [List.find]. rewrite Hnot. reflexivity.
Qed.

Section DecoderEdges.
Context `{Platform}.

(** The read loop over chunks that are followed by reads on which it
    throws at once. *)
Lemma parseSse_from_prefix signal pre rest e :
  forall k dec buffer,
  (forall i, (i < length pre)%nat -> is_aborted signal (2 + k + i) = false) ->
  (forall dec' buffer',
      parseSse_from signal (k + length pre) dec' buffer' rest = ([], Some e)) ->
  parseSse_from signal k dec buffer (map Chunk pre ++ rest) =
  (let '(evs, err) := parseSse_from None k dec buffer (map Chunk pre) in
   (evs, Some (default e err))).
Proof.
  induction pre as [|value pre IH]; intros k dec buffer Hsig Hrest.
  - cbn [map app length]. specialize (Hrest dec buffer).
    rewrite Nat.add_0_r in Hrest. rewrite Hrest. reflexivity.
  - cbn [map app parseSse_from is_aborted].
    pose proof (Hsig 0%nat ltac:(cbn; lia)) as H0.
    rewrite Nat.add_0_r in H0. cbn [Nat.add] in H0 |- *. rewrite H0.
    destruct (decode dec value) as [dec' t].
    destruct (pop (split_blank (buffer ++ t))) as [parts last].
    destruct (emit parts) as [evs [err|]]; [reflexivity|].
    rewrite (IH (S k) dec' (default [] last)).
    + destruct (parseSse_from None (S k) dec' (default [] last) (map Chunk pre))
        as [evs' err']. reflexivity.
    + intros i Hi. specialize (Hsig (S i) ltac:(cbn; lia)).
      rewrite <- Hsig. f_equal. lia.
    + intros dec'' buffer''. rewrite <- (Hrest dec'' buffer''). f_equal. cbn. lia.
Qed.

Lemma parseSse_from_no_signal k k' dec buffer reads :
  parseSse_from None k dec buffer reads = parseSse_from None k' dec buffer reads.
Proof.
  revert k k' dec buffer. induction reads as [|[value|e] reads IH]; intros; try reflexivity.
  cbn [parseSse_from is_aborted].
  destruct (decode dec value) as [dec' t].
  destruct (pop (split_blank (buffer ++ t))) as [parts last].
  destruct (emit parts) as [evs [err|]]; [reflexivity|].
  rewrite (IH (S k) (S k')). reflexivity.
Qed.

(** X3. A signal that fires while the body is read: when [signal.aborted]
    is first seen at the head of the iteration that follows the chunks
    [pre], the decoder has yielded the events of [pre] and then throws the
    abort error (or the syntax error that [pre] already causes); the
    remaining reads are not looked at. *)
Theorem abort_ends_the_decoding sig pre rest :
  (forall i, (i < length pre)%nat -> aborted sig (2 + i) = false) ->
  aborted sig (2 + length pre) = true ->
  parseSse (map Chunk pre ++ rest) (Some sig) =
  (let '(evs, err) := parseSse (map Chunk pre) None in
   (evs, Some (default (abort_message sig) err))).
Proof.
  intros Hbefore Hfire. unfold parseSse.
  apply parseSse_from_prefix.
  - exact Hbefore.
  - intros dec' buffer'.
    change (aborted sig (S (S (length pre))) = true) in Hfire.
    destruct rest as [|[value|e] rest];
      cbn [parseSse_from is_aborted Nat.add]; rewrite Hfire; reflexivity.
Qed.

(** X4. A read that is rejected: the decoder has yielded the events of the
    chunks before it and then throws the rejection (or the syntax error
    that those chunks already cause). *)
Theorem rejected_read_ends_the_decoding signal pre e rest :
  never_aborted signal ->
  parseSse (map Chunk pre ++ ReadRejected e :: rest) signal =
  (let '(evs, err) := parseSse (map Chunk pre) None in
   (evs, Some (default e err))).
Proof.
  intros Hsig. unfold parseSse.
  apply parseSse_from_prefix.
  - intros i _. apply Hsig.
  - intros dec' buffer'. cbn [parseSse_from]. rewrite Hsig. reflexivity.
Qed.

(** X5. An event that the stream does not end with a blank line is lost:
    when the decoded text is [done ++ tail], where [done] splits into
    [parts] with nothing left over and [tail] holds no blank line, the
    decoder yields what [parts] give, and nothing for [tail]. *)
Theorem unterminated_tail_is_dropped signal chunks done tail parts :
  never_aborted signal ->
  decode_all decoder_init chunks = done ++ tail ->
  pop (split_blank done) = (parts, Some []) ->
  split_blank tail = [tail] ->
  parseSse (map Chunk chunks) signal = emit parts.
Proof.
  intros Hsig Htext Hdone Htail. unfold parseSse.
  rewrite (parseSse_from_chunks signal chunks Hsig) by reflexivity.
  cbn [app]. rewrite Htext, segments_app.
  rewrite pop_split_blank in Hdone. injection Hdone as Hparts Hrest.
  rewrite Hparts, Hrest. cbn [app fst].
  pose proof (pop_split_blank tail) as Hpop. rewrite Htail in Hpop.
  injection Hpop as Hnone _. rewrite <- Hnone, app_nil_r. reflexivity.
Qed.

End DecoderEdges.

(** ** The shape of an HTTP turn *)

Lemma post_and {A} (m : Gen A) h (Q1 Q2 : Outcome A -> _) :
  post m h Q1 -> post m h Q2 -> post m h (fun o s t => Q1 o s t /\ Q2 o s t).
Proof. intros H1 H2 p. split; [apply H1 | apply H2]. Qed.

Section TurnShape.
Context `{Platform}.

Lemma post_dispatch_shape args event ls h :
  post (dispatch args event ls) h (fun o _ t =>
    Forall (http_yield args) t
    /\ match o with
       | Returned ls' => failed ls' = failed ls || existsb is_failure t
       | _ => True
       end).
Proof.
  assert (forall e, is_item_started e = false -> http_yield args (AYield (stringify e)))
    as Hplain by (intros e He _; exact He).
  unfold dispatch.
  destruct (is_string "response.output_item.done" _).
  - apply post_bind, post_when; intros Hsig.
    + assert (forall item, http_yield args (AYield (stringify (item_started item))))
        as Hstarted.
      { intros item Hnone. rewrite Hnone in Hsig. discriminate Hsig. }
      apply post_yield; [|split; [repeat constructor; apply Hstarted | exact I]].
      apply post_bind, post_item_guard;
        [|intros e; split; [repeat constructor; apply Hstarted | exact I]].
      apply post_bind, post_yield;
        [|split; [repeat constructor; first [apply Hstarted | apply Hplain; reflexivity]
                 | exact I]].
      apply post_ret.
      split; [repeat constructor; first [apply Hstarted | apply Hplain; reflexivity]|].
      cbn [failed app existsb is_failure orb]. rewrite orb_false_r. reflexivity.
    + apply post_bind, post_item_guard; [|intros e; split; [constructor | exact I]].
      apply post_bind, post_yield;
        [|split; [repeat constructor; apply Hplain; reflexivity | exact I]].
      apply post_ret. split; [repeat constructor; apply Hplain; reflexivity|].
      cbn [failed app existsb is_failure orb]. rewrite orb_false_r. reflexivity.
  - destruct (is_string "response.completed" _); [|destruct (is_string "error" _)].
    + apply post_bind, post_yield;
        [|split; [repeat constructor; apply Hplain; reflexivity | exact I]].
      apply post_ret. split; [repeat constructor; apply Hplain; reflexivity|].
      cbn [failed app existsb is_failure orb]. rewrite orb_false_r. reflexivity.
    + apply post_bind, post_yield;
        [|split; [repeat constructor; apply Hplain; reflexivity | exact I]].
      apply post_ret. split; [repeat constructor; apply Hplain; reflexivity|].
      cbn [failed app existsb is_failure orb]. rewrite orb_true_r. reflexivity.
    + apply post_ret. split; [constructor|].
      cbn [existsb]. rewrite orb_false_r. reflexivity.
Qed.

Lemma post_consume_shape args events : forall ls h,
  post (consume args events ls) h (fun o _ t =>
    Forall (http_yield args) t
    /\ match o with
       | Returned ls' => failed ls' = failed ls || existsb is_failure t
       | _ => True
       end).
Proof.
  induction events as [|event rest IH]; intros ls h.
  - apply post_ret. split; [constructor|]. cbn [existsb]. rewrite orb_false_r. reflexivity.
  - cbn [consume]. apply post_bind.
    assert (post (handle args event ls) h (fun o _ t =>
              Forall (http_yield args) t
              /\ match o with
                 | Returned ls' => failed ls' = failed ls || existsb is_failure t
                 | _ => True
                 end)) as Hstep.
    { destruct event; try apply post_dispatch_shape.
      apply post_throw. split; [constructor | exact I]. }
    eapply post_weaken; [exact Hstep|].
    intros [ls1| | |?] s t [Ht Ho]; try (split; [exact Ht | exact I]).
    eapply post_weaken; [apply IH|].
    intros o' s' t' [Ht' Ho']. split; [apply Forall_app; split; assumption|].
    destruct o' as [ls2| | |?]; try exact I.
    rewrite Ho', Ho, existsb_app, orb_assoc. reflexivity.
Qed.

(** The whole of [runHttp]: nothing, or the request followed by events; and
    a turn that returns has handed over a [turn.completed] or a
    [turn.failed]. *)
Lemma post_runHttp_shape w args h :
  post (runHttp w args) h (fun o _ t =>
    match t with
    | [] => True
    | a :: ys => (exists req, a = AFetch req) /\ Forall (http_yield args) ys
    end
    /\ (o = Returned tt -> existsb is_terminal t = true)).
Proof.
  assert (forall e, is_item_started e = false -> http_yield args (AYield (stringify e)))
    as Hplain by (intros e He _; exact He).
  unfold runHttp.
  apply post_bind, post_preflight; [|intros e; split; [exact I | discriminate]].
  apply post_bind, post_get.
  apply post_bind, post_load_schema; [|intros e; split; [exact I | discriminate]].
  intros schema _.
  apply post_bind, post_await_fetch;
    [|intros e; split; [split; [eauto | constructor] | discriminate]].
  intros r _.
  apply post_bind, post_yield;
    [|split; [split; [eauto | repeat constructor; apply Hplain; reflexivity]
             | discriminate]].
  apply post_bind, post_yield;
    [|split; [split; [eauto | repeat constructor; apply Hplain; reflexivity]
             | discriminate]].
  destruct (ok r); cbn [negb];
    [|apply post_yield;
      (split; [split; [eauto | repeat constructor; apply Hplain; reflexivity]
              | first [reflexivity | discriminate]])].
  destruct (body r) as [reads|];
    [|apply post_yield;
      (split; [split; [eauto | repeat constructor; apply Hplain; reflexivity]
              | first [reflexivity | discriminate]])].
  destruct (parseSse reads (signal args)) as [events err].
  apply post_bind.
  eapply post_weaken; [apply post_and; [apply post_consume | apply post_consume_shape]|].
  intros o s t [[-> Hc] [Ht Hf]].
  assert (Forall (http_yield args)
            (AYield (stringify (thread_started (resolve_thread w args)))
             :: AYield (stringify turn_started) :: t)) as Hys
    by (repeat constructor; [apply Hplain; reflexivity.. | exact Ht]).
  destruct o as [ls| | |?]; try (split; [split; [eauto | exact Hys] | discriminate]).
  destruct Hc as [_ Hc]. cbn [completed failed orb] in Hc, Hf.
  assert (forall tail,
             Forall (http_yield args) tail ->
             (exists req, AFetch (request (get h (resolve_thread w args)) schema args)
                          = AFetch req)
             /\ Forall (http_yield args)
                  (AYield (stringify (thread_started (resolve_thread w args)))
                   :: AYield (stringify turn_started) :: t ++ tail)) as Hshape.
  { intros tail Htail. split; [eauto|].
    repeat constructor; [apply Hplain; reflexivity..|].
    apply Forall_app. split; assumption. }
  assert (forall tail,
             completed ls || failed ls || existsb is_terminal tail = true ->
             existsb is_terminal
               (AFetch (request (get h (resolve_thread w args)) schema args)
                :: AYield (stringify (thread_started (resolve_thread w args)))
                :: AYield (stringify turn_started) :: t ++ tail) = true) as Hterminal.
  { intros tail Hany. cbn [existsb is_terminal orb]. rewrite existsb_app.
    apply orb_true_iff in Hany as [Hany | Hany]; [|rewrite Hany; apply orb_true_r].
    apply orb_true_iff. left. apply existsb_exists.
    apply orb_true_iff in Hany as [Hdone | Hfail].
    - rewrite Hc in Hdone. apply existsb_exists in Hdone as (a & Hin & Ha).
      exists a. split; [exact Hin|]. destruct a as [[[]|]| | |]; try discriminate; reflexivity.
    - rewrite Hf in Hfail. apply existsb_exists in Hfail as (a & Hin & Ha).
      exists a. split; [exact Hin|]. destruct a as [[[]|]| | |]; try discriminate; reflexivity. }
  apply post_bind.
  destruct err as [e|];
    [apply post_throw; split; [apply (Hshape []); constructor | discriminate]
    | apply post_ret].
  apply post_bind, post_when; intros Hflags.
  - apply post_yield;
      [|split; [apply (Hshape [_]); repeat constructor; apply Hplain; reflexivity
               | discriminate]].
    apply post_when; intros Hdone.
    + apply post_set. split.
      * apply (Hshape [_]). repeat constructor.
      * intros _. apply (Hterminal [_]). apply orb_true_r.
    + split.
      * apply (Hshape [_]). repeat constructor.
      * intros _. apply (Hterminal [_]). apply orb_true_r.
  - assert (completed ls || failed ls = true) as Hany.
    { destruct (completed ls), (failed ls); try reflexivity. discriminate Hflags. }
    apply post_when; intros Hdone.
    + apply post_set. split; [apply (Hshape []); constructor|].
      intros _. apply (Hterminal []). rewrite Hany. reflexivity.
    + split; [apply (Hshape []); constructor|].
      intros _. apply (Hterminal []). rewrite Hany. reflexivity.
Qed.

End TurnShape.

(** ** Further properties of the HTTP path *)

Section HttpExtras.
Context `{Platform}.

Lemma post_trust_check w args h :
  post (trust_check w args) h (fun o s t =>
    s = h /\ t = [] /\ (o = Returned tt \/ exists e, o = Threw e)).
Proof.
  unfold trust_check.
  destruct (workingDirectory args) as [[|c d]|]; try (apply post_ret; auto).
  destruct (negb (flag _)); [|apply post_ret; auto].
  destruct (negb (existsSync _ _)); [apply post_throw; eauto | apply post_ret; auto].
Qed.

Lemma events_of_yields args ys :
  Forall (http_yield args) ys ->
  exists events, ys = map (fun e => AYield (stringify e)) events.
Proof.
  induction 1 as [|a ys Ha _ [events ->]]; [exists []; reflexivity|].
  destruct a as [[e|]| | |]; try contradiction.
  exists (e :: events). reflexivity.
Qed.

(** X6. With a remote endpoint configured, a call does nothing else than
    issue at most one request and then hand over events: its trace is
    empty, or one fetch followed by [JSON.stringify]-ed events. It never
    starts a subprocess, never writes to one and never yields a raw line,
    however the turn ends and wherever the consumer stops. *)
Theorem http_turn_is_one_request_then_events this w args h p :
  given (baseUrl args) = true ->
  trace (run this w args h p) = []
  \/ exists req events,
       trace (run this w args h p)
       = AFetch req :: map (fun e => AYield (stringify e)) events.
Proof.
  intros Hurl.
  enough (post (run this w args) h (fun _ _ t =>
            t = [] \/ exists req events,
                        t = AFetch req :: map (fun e => AYield (stringify e)) events))
    as HQ by exact (HQ p).
  unfold run. rewrite Hurl.
  apply post_bind, post_resume; [|left; reflexivity].
  apply post_bind. eapply post_weaken; [apply post_trust_check|].
  intros o s t (-> & -> & [-> | [e ->]]); [|left; reflexivity].
  eapply post_weaken; [apply post_runHttp_shape|].
  intros o s [|a ys] [Hshape _]; [left; reflexivity|].
  destruct Hshape as [[req ->] Hys].
  destruct (events_of_yields args ys Hys) as [events ->].
  right. exists req, events. reflexivity.
Qed.

(** X7. Without a signal no [item.started] event is ever handed over: the
    progress events exist only for callers that passed an [AbortSignal]. *)
Theorem no_item_started_without_signal w args h p :
  signal args = None ->
  forall item, stringify (item_started item) ∉ yields (trace (runHttp w args h p)).
Proof.
  intros Hnone item Hin.
  destruct (post_runHttp_shape w args h p) as [Hshape _].
  destruct (trace (runHttp w args h p)) as [|a ys]; [inversion Hin|].
  destruct Hshape as [[req ->] Hys]. cbn [yields] in Hin.
  induction Hys as [|b ys Hb _ IH]; [inversion Hin|].
  destruct b as [[e|]| | |]; try contradiction.
  cbn [yields] in Hin. apply elem_of_cons in Hin as [Heq | Hin]; [|exact (IH Hin)].
  injection Heq as <-. specialize (Hb Hnone). discriminate Hb.
Qed.

(** X8. A turn of the HTTP path that returns, rather than throwing or being
    abandoned, has told its consumer how it ended: a [turn.completed] or a
    [turn.failed] is among the events handed over. *)
Theorem returned_turn_reports_its_end w args h p :
  outcome (runHttp w args h p) = Returned tt ->
  exists y, y ∈ yields (trace (runHttp w args h p))
            /\ ((exists usage, y = stringify (turn_completed usage))
                \/ exists message, y = stringify (turn_failed message)).
Proof.
  intros Hret.
  destruct (post_runHttp_shape w args h p) as [_ Hterminal].
  specialize (Hterminal Hret).
  induction (trace (runHttp w args h p)) as [|a t IH]; [discriminate|].
  cbn [existsb] in Hterminal. apply orb_true_iff in Hterminal as [Ha | Ht].
  - destruct a as [[[]|]| | |]; try discriminate; cbn [yields];
      eexists; (split; [left|]); eauto.
  - destruct (IH Ht) as (y & Hin & Hy). exists y. split; [|exact Hy].
    destruct a; cbn [yields]; try exact Hin. right. exact Hin.
Qed.

(** X9. A call only ever extends the history of its own thread: the list
    stored for the resolved thread id after the call starts with the list
    stored before, and the entry of every other thread id is left as it
    was. *)
Theorem history_is_append_only this w args h p :
  get h (resolve_thread w args)
    `prefix_of` get (store (run this w args h p)) (resolve_thread w args)
  /\ forall other, other <> resolve_thread w args ->
       store (run this w args h p) !! other = h !! other.
Proof.
  rewrite (post_run this w args h p).
  destruct (_ && _).
  - split.
    + unfold get at 2. rewrite lookup_insert_eq. cbn [default].
      unfold committed. eexists. reflexivity.
    + intros other Hother. apply lookup_insert_ne. congruence.
  - split; [reflexivity | reflexivity].
Qed.

(** X10. Cancellation on entry: when the signal is already aborted, or
    fires during the grace wait, [runHttp] throws the abort reason before
    anything else happens; no request is issued, no event is handed over
    and the store is untouched. *)
Theorem cancelled_before_the_request w args h p :
  cancelled_on_entry args = true ->
  exists sig,
    signal args = Some sig
    /\ outcome (runHttp w args h p) = Threw (abort_message sig)
    /\ trace (runHttp w args h p) = []
    /\ store (runHttp w args h p) = h.
Proof.
  unfold cancelled_on_entry, is_aborted. intros Hc.
  destruct (signal args) as [sig|] eqn:Hsig; [|discriminate].
  exists sig. split; [reflexivity|].
  assert (preflight args = throw (abort_message sig)) as Hpre.
  { unfold preflight. rewrite Hsig.
    destruct (aborted sig 0); [reflexivity|]. cbn [orb] in Hc. rewrite Hc. reflexivity. }
  enough (post_at (runHttp w args) h p (fun o s _ t =>
            o = Threw (abort_message sig) /\ t = [] /\ s = h)) as HQ by exact HQ.
  unfold runHttp. rewrite Hpre. apply at_bind, at_throw. auto.
Qed.


End HttpExtras.

(** ** Items and chunking *)

Lemma numbered_app n a b :
  numbered n (a ++ b) = numbered n a ++ numbered (n + length a) b.
Proof.
  unfold numbered. rewrite imap_app. f_equal.
  apply imap_ext. intros i m _. cbn. rewrite Nat.add_assoc. reflexivity.
Qed.

Lemma completed_items_app t1 t2 :
  omap completed_item (yields (t1 ++ t2)) =
  omap completed_item (yields t1) ++ omap completed_item (yields t2).
Proof. rewrite yields_app. apply omap_app. Qed.

Lemma bind_ext {A B} (m : Gen A) (k k' : A -> Gen B) h p :
  (forall a h' p', k a h' p' = k' a h' p') -> bind m k h p = bind m k' h p.
Proof.
  intros Hk. unfold bind. destruct (outcome (m h p)); [|reflexivity..].
  rewrite Hk. reflexivity.
Qed.

Lemma chunks_of_Some reads chunks :
  chunks_of reads = Some chunks -> reads = map Chunk chunks.
Proof.
  revert chunks. induction reads as [|[value|e] reads IH]; intros chunks; cbn.
  - intros [= <-]. reflexivity.
  - destruct (chunks_of reads) as [rest|]; [|discriminate].
    intros [= <-]. rewrite (IH rest eq_refl). reflexivity.
  - discriminate.
Qed.

Section ItemFacts.
Context `{Platform}.

Lemma at_item_guard_any args item h p Q :
  Q (Returned tt) h p [] -> (forall e, Q (Threw e) h p []) ->
  post_at (item_guard args item) h p Q.
Proof.
  intros Hok Herr. unfold item_guard.
  destruct (signal args) as [sig|]; [|exact Hok].
  destruct item as [[| | | | |]|]; try apply Herr;
    destruct (is_string "function_call" _); first [apply Herr | exact Hok].
Qed.

Lemma drain_dispatch_items args event ls h :
  post_at (dispatch args event ls) h None (fun o _ p t =>
    p = None /\
    match o with
    | Returned ls' =>
        omap completed_item (yields t)
        = numbered (assistantCount ls) (assistant_messages [event])
        /\ assistantCount ls' =
           (assistantCount ls + length (assistant_messages [event]))%nat
    | _ => True
    end).
Proof.
  unfold dispatch, assistant_messages, numbered. cbn [omap list_omap].
  destruct (is_string "response.output_item.done" _).
  - cbn [imap length text]. rewrite Nat.add_0_r, Nat.add_1_r.
    apply at_bind, at_when; intros _.
    + apply at_yield; [discriminate|].
      apply at_bind, at_item_guard_any; [|auto].
      apply at_bind, at_yield; [discriminate|]. apply at_ret. auto.
    + apply at_bind, at_item_guard_any; [|auto].
      apply at_bind, at_yield; [discriminate|]. apply at_ret. auto.
  - cbn [imap length]. rewrite Nat.add_0_r.
    destruct (is_string "response.completed" _); [|destruct (is_string "error" _)].
    + apply at_bind, at_yield; [discriminate|]. apply at_ret. auto.
    + apply at_bind, at_yield; [discriminate|]. apply at_ret. auto.
    + apply at_ret. auto.
Qed.

Lemma drain_consume_items args events : forall ls h,
  post_at (consume args events ls) h None (fun o _ p t =>
    p = None /\
    match o with
    | Returned ls' =>
        omap completed_item (yields t)
        = numbered (assistantCount ls) (assistant_messages events)
        /\ assistantCount ls' =
           (assistantCount ls + length (assistant_messages events))%nat
    | _ => True
    end).
Proof.
  induction events as [|event rest IH]; intros ls h.
  - apply at_ret. cbn. rewrite Nat.add_0_r. auto.
  - cbn [consume]. apply at_bind.
    assert (post_at (handle args event ls) h None (fun o _ p t =>
              p = None /\
              match o with
              | Returned ls' =>
                  omap completed_item (yields t)
                  = numbered (assistantCount ls) (assistant_messages [event])
                  /\ assistantCount ls' =
                     (assistantCount ls + length (assistant_messages [event]))%nat
              | _ => True
              end)) as Hstep.
    { destruct event; try apply drain_dispatch_items. apply at_throw. auto. }
    eapply at_weaken; [exact Hstep|].
    intros [ls1| | |?] s q t [-> Ho]; try (split; [reflexivity | exact I]).
    destruct Ho as [Hitems Hcount].
    eapply at_weaken; [apply IH|].
    intros [ls2| | |?] s' q' t' [-> Ho']; split; try reflexivity; try exact I.
    destruct Ho' as [Hitems' Hcount'].
    rewrite assistant_messages_cons, completed_items_app, numbered_app, length_app.
    rewrite Hitems, Hitems', Hcount', Hcount. split; [reflexivity | lia].
Qed.

Lemma at_preflight_any args h p Q :
  Q (Returned tt) h p [] -> (forall e, Q (Threw e) h p []) ->
  post_at (preflight args) h p Q.
Proof.
  intros Hok Herr. unfold preflight.
  destruct (signal args) as [sig|]; [|exact Hok].
  destruct (aborted sig 0); [apply Herr|].
  destruct (aborted sig 1); [apply Herr | exact Hok].
Qed.

(** X12. The items of a completed turn are its assistant messages: when a
    drained turn of the HTTP path returns after a [turn.completed], the
    items of its [item.completed] events are, in order, the assistant
    messages it has stored, with the ids [item_0], [item_1], ... *)
Theorem completed_items_are_numbered w args h :
  let turn := runHttp w args h None in
  outcome turn = Returned tt ->
  has_completed (trace turn) = true ->
  omap completed_item (yields (trace turn))
  = imap (fun i m => {| item_id := u "item_" ++ decimal (Z.of_nat i);
                        item_text := text m |})
         (assistant_messages (decoded w args h)).
Proof.
  intros turn. subst turn.
  enough (post_at (runHttp w args) h None (fun o _ _ t =>
            o = Returned tt -> has_completed t = true ->
            omap completed_item (yields t)
            = numbered 0 (assistant_messages (decoded w args h))) ) as HQ by exact HQ.
  unfold runHttp.
  apply at_bind, at_preflight_any; [|discriminate].
  apply at_bind, at_get. apply at_bind.
  unfold load_schema. destruct (schema_of w args) as [schema|e] eqn:Hschema;
    [apply at_ret | apply at_throw; discriminate].
  apply at_bind, at_await_fetch.
  destruct (fetch w _) as [r|e] eqn:Hfetch; [|discriminate].
  apply at_bind, at_yield; [discriminate|].
  apply at_bind, at_yield; [discriminate|].
  destruct (ok r); cbn [negb];
    [|apply at_yield; [discriminate|]; intros _ Hdone; discriminate Hdone].
  destruct (body r) as [reads|] eqn:Hbody;
    [|apply at_yield; [discriminate|]; intros _ Hdone; discriminate Hdone].
  assert (decoded w args h = (parseSse reads (signal args)).1) as ->.
  { unfold decoded, exchange. rewrite Hschema, Hfetch, Hbody. reflexivity. }
  destruct (parseSse reads (signal args)) as [events err]. cbn [fst].
  apply at_bind. eapply at_weaken; [apply drain_consume_items|].
  intros [ls| | |?] s q t [-> Ho]; try discriminate.
  destruct Ho as [Hitems _]. cbn [assistantCount] in Hitems.
  apply at_bind. destruct err as [e|]; [apply at_throw; discriminate | apply at_ret].
  apply at_bind, at_when; intros _.
  - apply at_yield; [discriminate|]. apply at_when; intros _; [apply at_set|];
      intros _ _; cbn [app yields omap list_omap completed_item];
      rewrite completed_items_app, Hitems; cbn; apply app_nil_r.
  - apply at_when; intros _; [apply at_set|];
      intros _ _; cbn [app yields omap list_omap completed_item];
      rewrite completed_items_app, Hitems; cbn; apply app_nil_r.
Qed.

Lemma parseSse_one_chunk reads signal :
  streaming -> never_aborted signal ->
  parseSse (one_chunk reads) signal = parseSse reads signal.
Proof.
  intros Hstream Hsig. unfold one_chunk.
  destruct (chunks_of reads) as [chunks|] eqn:Hchunks; [|reflexivity].
  rewrite (chunks_of_Some _ _ Hchunks). unfold parseSse.
  change [Chunk (concat chunks)] with (map Chunk [concat chunks]).
  rewrite !(parseSse_from_chunks signal _ Hsig) by reflexivity.
  rewrite !decode_all_concat by exact Hstream.
  cbn [concat]. rewrite app_nil_r. reflexivity.
Qed.

(** X13. A turn does not depend on how the network cuts the response body:
    for a streaming [TextDecoder] and a signal that does not fire, the run
    against an endpoint whose bodies arrive as one chunk is the run against
    the endpoint whose bodies arrive in any chunks - the same events, the
    same outcome and the same stored history. *)
Theorem turn_is_chunk_invariant w args h p :
  streaming -> never_aborted (signal args) ->
  runHttp (reframe one_chunk w) args h p = runHttp w args h p.
Proof.
  intros Hstream Hsig. unfold runHttp.
  apply bind_ext. intros _ h1 p1.
  change (resolve_thread (reframe one_chunk w) args) with (resolve_thread w args).
  apply bind_ext. intros history h2 p2.
  change (load_schema (reframe one_chunk w) args) with (load_schema w args).
  apply bind_ext. intros schema h3 p3.
  unfold await_fetch. cbn [fetch reframe].
  destruct (fetch w (request history schema args)) as [r|e]; [|reflexivity].
  unfold bind at 1 3. cbn [bind act ret outcome store pulls trace].
  cbn [ok body status response_text].
  destruct (ok r); [|reflexivity]. cbn [negb].
  destruct (body r) as [reads|]; [|reflexivity].
  cbn [fmap option_fmap option_map].
  rewrite (parseSse_one_chunk reads (signal args) Hstream Hsig). reflexivity.
Qed.

End ItemFacts.

(** ** Further properties of the process path, the environment and the
    executable *)

Lemma post_yield_each_prefix vs h :
  post (yield_each vs) h (fun _ _ t => t `prefix_of` map AYield vs).
Proof.
  induction vs as [|v vs IH]; cbn [yield_each map].
  - apply post_ret. reflexivity.
  - apply post_bind, post_yield.
    + eapply post_weaken; [apply IH|]. intros o s t Ht.
      apply (prefix_cons (AYield v)), Ht.
    + apply (prefix_cons (AYield v)), prefix_nil.
Qed.

Lemma push_each_elem name l x :
  x ∈ l -> exists pre post, push_each (Some l) name = pre ++ [u name; x] ++ post.
Proof.
  unfold push_each. induction l as [|y l IH]; intros Hin; [inversion Hin|].
  apply elem_of_cons in Hin as [-> | Hin].
  - exists [], (flat_map (fun x => [u name; x]) l). reflexivity.
  - destruct (IH Hin) as (pre & post & Heq).
    exists (u name :: y :: pre), post. cbn [flat_map app]. rewrite Heq. reflexivity.
Qed.

(** X14. The argument vector of the subprocess starts with [exec
    --experimental-json]; every additional directory is passed as
    [--add-dir <dir>] and every image as [--image <path>]; and when a
    non-empty thread id is given the vector ends with [resume <id>]. *)
Theorem commandArgs_flags args :
  (exists rest, commandArgs args = u "exec" :: u "--experimental-json" :: rest)
  /\ (forall dirs dir, additionalDirectories args = Some dirs -> dir ∈ dirs ->
      exists pre post, commandArgs args = pre ++ [u "--add-dir"; dir] ++ post)
  /\ (forall paths path, images args = Some paths -> path ∈ paths ->
      exists pre post, commandArgs args = pre ++ [u "--image"; path] ++ post)
  /\ (forall id, threadId args = Some id -> id <> [] ->
      exists front, commandArgs args = front ++ [u "resume"; id]).
Proof.
  unfold commandArgs.
  set (front := [u "exec"; u "--experimental-json"]).
  set (a1 := push_if (model args) _). set (a2 := push_if (sandboxMode args) _).
  set (a3 := push_if (workingDirectory args) _).
  set (a5 := if flag (skipGitRepoCheck args) then _ else _).
  set (a6 := push_if (outputSchemaFile args) _).
  set (a7 := push_if (modelReasoningEffort args) _).
  set (a8 := push_config (networkAccessEnabled args) _).
  set (a9 := push_config (webSearchEnabled args) _).
  set (a10 := push_if (approvalPolicy args) _).
  split; [|split; [|split]].
  - eexists. subst front. cbn [app]. reflexivity.
  - intros dirs dir Hdirs Hin. rewrite Hdirs.
    destruct (push_each_elem "--add-dir" dirs dir Hin) as (pre & post & ->).
    exists (front ++ a1 ++ a2 ++ a3 ++ pre),
      (post ++ a5 ++ a6 ++ a7 ++ a8 ++ a9 ++ a10
            ++ push_each (images args) "--image"
            ++ push_if (threadId args) (fun t => [u "resume"; t])).
    rewrite <- !app_assoc. reflexivity.
  - intros paths path Hpaths Hin. rewrite Hpaths.
    destruct (push_each_elem "--image" paths path Hin) as (pre & post & ->).
    exists (front ++ a1 ++ a2 ++ a3 ++ push_each (additionalDirectories args) "--add-dir"
                  ++ a5 ++ a6 ++ a7 ++ a8 ++ a9 ++ a10 ++ pre),
      (post ++ push_if (threadId args) (fun t => [u "resume"; t])).
    rewrite <- !app_assoc. reflexivity.
  - intros id Hid Hne. rewrite Hid.
    destruct id as [|c id]; [contradiction|]. cbn [push_if].
    exists (front ++ a1 ++ a2 ++ a3 ++ push_each (additionalDirectories args) "--add-dir"
                  ++ a5 ++ a6 ++ a7 ++ a8 ++ a9 ++ a10
                  ++ push_each (images args) "--image").
    rewrite <- !app_assoc. reflexivity.
Qed.

(** X15. The environment of the subprocess: the originator variable is
    always set, to the value it had if that was not empty and to
    [codex_sdk_ts] otherwise; [OPENAI_BASE_URL] and [CODEX_API_KEY] are
    set from a non-empty [baseUrl] and [apiKey] and otherwise left as
    they were; every other variable is taken unchanged from the override
    when there is one - and then nothing of [process.env] is inherited -
    and from [process.env] otherwise. *)
Theorem buildEnv_lookup this w args :
  let base := default (process_env w) (envOverride this) in
  let env := buildEnv this w args in
  env !! INTERNAL_ORIGINATOR_ENV
  = Some (match base !! INTERNAL_ORIGINATOR_ENV with
          | Some (c :: v) => c :: v
          | _ => TYPESCRIPT_SDK_ORIGINATOR
          end)
  /\ env !! u "OPENAI_BASE_URL"
     = match baseUrl args with
       | Some (c :: b) => Some (c :: b)
       | _ => base !! u "OPENAI_BASE_URL"
       end
  /\ env !! u "CODEX_API_KEY"
     = match apiKey args with
       | Some (c :: k) => Some (c :: k)
       | _ => base !! u "CODEX_API_KEY"
       end
  /\ forall name,
       name <> INTERNAL_ORIGINATOR_ENV -> name <> u "OPENAI_BASE_URL" ->
       name <> u "CODEX_API_KEY" ->
       env !! name = base !! name.
Proof.
  cbv zeta. unfold buildEnv.
  assert (INTERNAL_ORIGINATOR_ENV <> u "OPENAI_BASE_URL") as H1 by distinct.
  assert (INTERNAL_ORIGINATOR_ENV <> u "CODEX_API_KEY") as H2 by distinct.
  assert (u "OPENAI_BASE_URL" <> u "CODEX_API_KEY") as H3 by distinct.
  set (base := default (process_env w) (envOverride this)).
  assert (match envOverride this with Some o => o | None => process_env w end = base)
    as -> by (subst base; destruct (envOverride this); reflexivity).
  unfold given.
  destruct (base !! INTERNAL_ORIGINATOR_ENV) as [[|c v]|] eqn:Horig;
    destruct (baseUrl args) as [[|cb b]|], (apiKey args) as [[|ck k]|];
    repeat split; intros;
    rewrite ?lookup_insert_eq, ?(lookup_insert_ne _ (u "CODEX_API_KEY")),
      ?lookup_insert_eq, ?(lookup_insert_ne _ (u "OPENAI_BASE_URL")),
      ?lookup_insert_eq, ?(lookup_insert_ne _ INTERNAL_ORIGINATOR_ENV),
      ?lookup_insert_eq by congruence;
    first [reflexivity | exact Horig].
Qed.

Lemma str_eqb_refl a : str_eqb a a = true.
Proof. apply bool_decide_eq_true. reflexivity. Qed.

Lemma str_eqb_ne a c : a <> c -> str_eqb a c = false.
Proof. intros Hne. apply bool_decide_eq_false. exact Hne. Qed.

Lemma str_eqb_cases a c : {a = c /\ str_eqb a c = true} + {a <> c /\ str_eqb a c = false}.
Proof.
  destruct (decide (a = c)) as [-> | Hne].
  - left. split; [reflexivity | apply str_eqb_refl].
  - right. split; [exact Hne | apply str_eqb_ne, Hne].
Qed.

Lemma by_arch_known arch x64 arm64 :
  arch = u "x64" \/ arch = u "arm64" -> exists triple, by_arch arch x64 arm64 = Some triple.
Proof.
  unfold by_arch. intros Ha.
  destruct (str_eqb_cases arch (u "x64")) as [[_ ->] | [N1 ->]]; [eauto|].
  destruct (str_eqb_cases arch (u "arm64")) as [[_ ->] | [N2 ->]]; [eauto|].
  exfalso. tauto.
Qed.

Lemma by_arch_unknown arch x64 arm64 :
  ~ (arch = u "x64" \/ arch = u "arm64") -> by_arch arch x64 arm64 = None.
Proof.
  unfold by_arch. intros Ha.
  destruct (str_eqb_cases arch (u "x64")) as [[E _] | [_ ->]]; [exfalso; tauto|].
  destruct (str_eqb_cases arch (u "arm64")) as [[E _] | [_ ->]]; [exfalso; tauto|].
  reflexivity.
Qed.

Lemma targetTriple_known pr :
  (process_platform pr = u "linux" \/ process_platform pr = u "android"
   \/ process_platform pr = u "darwin" \/ process_platform pr = u "win32")
  /\ (process_arch pr = u "x64" \/ process_arch pr = u "arm64") ->
  exists triple, targetTriple pr = Some triple.
Proof.
  intros [Hp Ha]. unfold targetTriple.
  destruct (str_eqb_cases (process_platform pr) (u "linux")) as [[_ ->] | [N1 ->]];
    [apply by_arch_known, Ha|].
  destruct (str_eqb_cases (process_platform pr) (u "android")) as [[_ ->] | [N2 ->]];
    [apply by_arch_known, Ha|].
  destruct (str_eqb_cases (process_platform pr) (u "darwin")) as [[_ ->] | [N3 ->]];
    [apply by_arch_known, Ha|].
  destruct (str_eqb_cases (process_platform pr) (u "win32")) as [[_ ->] | [N4 ->]];
    [apply by_arch_known, Ha|].
  exfalso. tauto.
Qed.

Lemma targetTriple_unknown pr :
  ~ ((process_platform pr = u "linux" \/ process_platform pr = u "android"
      \/ process_platform pr = u "darwin" \/ process_platform pr = u "win32")
     /\ (process_arch pr = u "x64" \/ process_arch pr = u "arm64")) ->
  targetTriple pr = None.
Proof.
  intros Hunknown. unfold targetTriple.
  destruct (str_eqb_cases (process_platform pr) (u "linux")) as [[E ->] | [_ ->]];
    [apply by_arch_unknown; tauto|].
  destruct (str_eqb_cases (process_platform pr) (u "android")) as [[E ->] | [_ ->]];
    [apply by_arch_unknown; tauto|].
  destruct (str_eqb_cases (process_platform pr) (u "darwin")) as [[E ->] | [_ ->]];
    [apply by_arch_unknown; tauto|].
  destruct (str_eqb_cases (process_platform pr) (u "win32")) as [[E ->] | [_ ->]];
    [apply by_arch_unknown; tauto|].
  reflexivity.
Qed.

Lemma post_read_lines_prefix child lines h :
  post (read_lines child lines) h (fun _ _ t =>
    t `prefix_of` map AYield (map line lines)).
Proof.
  unfold read_lines.
  destruct (stdinError child) as [[n e]|]; [|apply post_yield_each_prefix].
  destruct (n <? length lines)%nat; [|apply post_yield_each_prefix].
  apply post_bind. eapply post_weaken; [apply post_yield_each_prefix|].
  intros o s t Ht.
  assert (t `prefix_of` map AYield (map line lines)) as Hall.
  { etransitivity; [exact Ht|]. rewrite <- (take_drop n lines) at 2.
    rewrite !map_app. apply prefix_app_r. reflexivity. }
  destruct o as [[]| | |?]; try exact Hall.
  apply post_unsettled. rewrite app_nil_r. exact Hall.
Qed.

Section ProcessExtras.
Context `{Platform}.

(** X16. The process path does, in this order and at most once each: start
    the subprocess, write the input to its stdin, and hand over the lines
    of its stdout; wherever it stops, what it has done is a beginning of
    that sequence. It never issues a request. *)
Theorem process_trace_is_a_prefix this w args h p :
  given (baseUrl args) = false ->
  let argv := commandArgs args in
  let env := buildEnv this w args in
  let child := spawn w (executablePath this) argv env in
  trace (run this w args h p)
    `prefix_of` ASpawn (executablePath this) argv env
                :: AWrite (input args)
                :: map (fun l => AYield (line l)) (default [] (stdout child)).
Proof.
  intros Hurl argv env child.
  enough (post (run this w args) h (fun _ _ t =>
            t `prefix_of` ASpawn (executablePath this) argv env
                          :: AWrite (input args)
                          :: map (fun l => AYield (line l)) (default [] (stdout child))))
    as HQ by exact (HQ p).
  unfold run. rewrite Hurl.
  apply post_bind, post_resume; [|apply prefix_nil].
  apply post_bind. eapply post_weaken; [apply post_trust_check|].
  intros o s t (-> & -> & [-> | [e ->]]); [|apply prefix_nil].
  unfold runProcess. fold argv env child.
  apply post_bind, post_act.
  destruct (stdin child); cbn [negb];
    [|apply post_throw; apply prefix_cons, prefix_nil].
  apply post_bind, post_act.
  destruct (stdout child) as [lines|];
    [|apply post_throw; apply prefix_cons, prefix_cons, prefix_nil].
  apply post_bind. eapply post_weaken; [apply post_read_lines_prefix|].
  intros o s t Ht.
  assert (forall tail, tail = [] ->
            [] ++ [] ++ [ASpawn (executablePath this) argv env]
            ++ [AWrite (input args)] ++ t ++ tail
            `prefix_of` ASpawn (executablePath this) argv env
                        :: AWrite (input args)
                        :: map (fun l => AYield (line l)) (default [] (Some lines)))
    as Hall.
  { intros tail ->. rewrite app_nil_r. cbn [app default].
    apply prefix_cons, prefix_cons. rewrite <- map_map. exact Ht. }
  destruct o as [[]| | |?]; try (rewrite <- (app_nil_r t); apply Hall; reflexivity).
  destruct (spawnError child); [apply post_throw, Hall; reflexivity|].
  unfold await_exit.
  destruct (stdinError child) as [[n e]|]; [apply post_unsettled, Hall; reflexivity|].
  destruct (exitHeard child); [|apply post_unsettled, Hall; reflexivity].
  destruct (exitCode child) as [[| |]|];
    first [apply post_ret, Hall | apply post_throw, Hall]; reflexivity.
Qed.

(** X17. The other endings of the process path, for a consumer that drains
    the stream and a passing trust check. A child without stdin makes the
    call throw right after the spawn, with nothing written; a child without
    stdout makes it throw after the input was written; when the child
    emitted an ["error"] event and its stdin none, that error is thrown
    after the lines of stdout, whatever the exit code; and an ["error"]
    event of its stdin that is emitted while the lines are read, for which
    there is no listener, ends the run there: the lines before it have
    been handed over and the stream neither completes nor raises. *)
Theorem process_failures this w args h :
  given (baseUrl args) = false ->
  untrusted w args = false ->
  let argv := commandArgs args in
  let env := buildEnv this w args in
  let child := spawn w (executablePath this) argv env in
  let r := run this w args h None in
  (stdin child = false ->
     outcome r = Threw (u "Child process has no stdin")
     /\ trace r = [ASpawn (executablePath this) argv env])
  /\ (stdin child = true -> stdout child = None ->
      outcome r = Threw (u "Child process has no stdout")
      /\ trace r = [ASpawn (executablePath this) argv env; AWrite (input args)])
  /\ (forall lines e,
      stdin child = true -> stdout child = Some lines ->
      stdinError child = None -> spawnError child = Some e ->
      outcome r = Threw e /\ yields (trace r) = map line lines)
  /\ (forall lines n e,
      stdin child = true -> stdout child = Some lines ->
      stdinError child = Some (n, e) -> (n < length lines)%nat ->
      outcome r = Unsettled (Uncaught e)
      /\ yields (trace r) = map line (take n lines)).
Proof.
  intros Hurl Htrust argv env child r. subst r.
  assert (forall Q,
            post_at (runProcess this w args) h None Q ->
            Q (outcome (run this w args h None)) (store (run this w args h None))
              (pulls (run this w args h None)) (trace (run this w args h None)))
    as Hrun.
  { intros Q HQ. unfold post_at in HQ. unfold run.
    rewrite Hurl, (trust_check_passes _ _ Htrust).
    unfold bind, resume, ret. cbn [outcome store pulls trace app].
    destruct (outcome (runProcess this w args h None)); exact HQ. }
  split; [|split; [|split]].
  - intros Hin. apply (Hrun (fun o _ _ t => o = Threw _ /\ t = _)).
    unfold runProcess. fold argv env child. rewrite Hin. cbn [negb].
    apply at_bind, at_act, at_throw. split; reflexivity.
  - intros Hin Hout. apply (Hrun (fun o _ _ t => o = Threw _ /\ t = _)).
    unfold runProcess. fold argv env child. rewrite Hin, Hout. cbn [negb].
    apply at_bind, at_act. apply at_bind, at_act, at_throw. split; reflexivity.
  - intros lines e Hin Hout Hpipe Herr.
    apply (Hrun (fun o _ _ t => o = Threw e /\ yields t = map line lines)).
    unfold runProcess, read_lines. fold argv env child.
    rewrite Hin, Hout, Herr, Hpipe. cbn [negb].
    apply at_bind, at_act. apply at_bind, at_act. apply at_bind.
    eapply at_weaken; [apply drain_yield_each|].
    intros o s q t (-> & -> & -> & ->). apply at_throw.
    split; [reflexivity|]. cbn [app yields].
    rewrite app_nil_r, yields_map_AYield. reflexivity.
  - intros lines n e Hin Hout Hpipe Hn.
    apply (Hrun (fun o _ _ t =>
                   o = Unsettled (Uncaught e) /\ yields t = map line (take n lines))).
    unfold runProcess, read_lines. fold argv env child.
    rewrite Hin, Hout, Hpipe. cbn [negb].
    apply Nat.ltb_lt in Hn. rewrite Hn.
    apply at_bind, at_act. apply at_bind, at_act. apply at_bind, at_bind.
    eapply at_weaken; [apply drain_yield_each|].
    intros o s q t (-> & -> & -> & ->).
    unfold post_at, unsettled. cbn [outcome trace].
    split; [reflexivity|]. cbn [app yields].
    rewrite !app_nil_r, yields_map_AYield. reflexivity.
Qed.

(** X18. [findCodexPath] knows four platforms and two architectures: for
    [linux], [android], [darwin] or [win32] on [x64] or [arm64] it returns
    a path, whose last segment is [codex.exe] on [win32] and [codex]
    elsewhere, and [android] gets the path that [linux] gets; for any other
    platform or architecture it throws an error that names both. A
    [CodexExec] built with a non-empty path never looks for the binary. *)
Theorem findCodexPath_support pr :
  let platform := process_platform pr in
  let arch := process_arch pr in
  let known :=
    (platform = u "linux" \/ platform = u "android" \/ platform = u "darwin"
     \/ platform = u "win32")
    /\ (arch = u "x64" \/ arch = u "arm64") in
  (known ->
   exists dir,
     findCodexPath pr
     = inl (path_join dir (if str_eqb platform (u "win32") then u "codex.exe"
                           else u "codex")))
  /\ (~ known ->
      findCodexPath pr
      = inr (u "Unsupported platform: " ++ platform ++ u " (" ++ arch ++ u ")"))
  /\ (forall path, platform = u "android" ->
      findCodexPath {| process_platform := u "linux"; process_arch := arch;
                       scriptDirName := scriptDirName pr |} = inl path ->
      findCodexPath pr = inl path)
  /\ (forall path env, path <> [] ->
      new_CodexExec pr (Some path) env
      = inl {| executablePath := path; envOverride := env |}).
Proof.
  cbv zeta. split; [|split; [|split]].
  - intros Hknown. unfold findCodexPath.
    destruct (targetTriple_known pr Hknown) as [triple ->].
    eexists. reflexivity.
  - intros Hunknown. unfold findCodexPath.
    rewrite (targetTriple_unknown pr Hunknown). reflexivity.
  - intros path Handroid. unfold findCodexPath, targetTriple.
    cbn [process_platform process_arch scriptDirName].
    assert (u "android" <> u "linux") as N1 by distinct.
    assert (u "android" <> u "win32") as N2 by distinct.
    assert (u "linux" <> u "win32") as N3 by distinct.
    rewrite Handroid, !str_eqb_refl, (str_eqb_ne _ _ N1), (str_eqb_ne _ _ N2),
      (str_eqb_ne _ _ N3).
    cbn [orb]. destruct (by_arch _ _ _); [|discriminate].
    intros Hpath. exact Hpath.
  - intros path env Hpath. destruct path as [|c path]; [contradiction | reflexivity].
Qed.

End ProcessExtras.

(** ** The guard of the read loop and the request configuration *)

Section GuardFacts.
Context `{Platform}.

(** X19. The guard on items exists only for callers that passed a signal.
    With a signal, an output-item event whose item has the type
    [function_call] makes the loop throw the abort reason, although the
    signal has not fired, and an output-item event without item makes it
    throw a [TypeError]; in both cases [item.started] was handed over and
    [item.completed] is not. Without a signal the same events give
    [item.completed] and the loop goes on. *)
Theorem item_guard_needs_a_signal args event ls h :
  is_string "response.output_item.done" (prop "type" (Some event)) = true ->
  let item := prop "item" (Some event) in
  let threadItem := agent_message (assistantCount ls) (item_text_of item) in
  let step := handle args event ls h None in
  (forall sig, signal args = Some sig ->
     is_string "function_call" (prop "type" item) = true ->
     outcome step = Threw (abort_message sig)
     /\ yields (trace step) = [stringify (item_started threadItem)])
  /\ (forall sig, signal args = Some sig -> item = None ->
      outcome step = Threw (TypeError "undefined")
      /\ yields (trace step) = [stringify (item_started threadItem)])
  /\ (signal args = None ->
      (exists ls', outcome step = Returned ls'
                   /\ assistantCount ls' = S (assistantCount ls))
      /\ yields (trace step) = [stringify (item_completed threadItem)]).
Proof.
  intros Hitem item threadItem step. subst step.
  assert (handle args event ls = dispatch args event ls) as ->.
  { destruct event; try reflexivity. discriminate Hitem. }
  unfold dispatch. rewrite Hitem. fold item. fold threadItem.
  split; [|split].
  - intros sig Hsig Hcall.
    enough (post_at
              (when (bool_decide (is_Some (signal args)))
                 (yield (stringify (item_started threadItem))) >>
               item_guard args item >>
               yield (stringify (item_completed threadItem)) >>
               ret {| updatedHistory :=
                        updatedHistory ls
                        ++ [{| role := assistant; text := item_text_of item |}];
                      assistantCount := S (assistantCount ls);
                      completed := completed ls; failed := failed ls |}) h None
              (fun o _ _ t => o = Threw (abort_message sig)
                              /\ yields t = [stringify (item_started threadItem)]))
      as HQ by exact HQ.
    unfold item_guard. rewrite Hsig.
    apply at_bind, at_yield; [discriminate|]. apply at_bind.
    destruct item as [[| | | | |]|] eqn:Hit;
      try (unfold is_string, prop in Hcall; discriminate Hcall);
      rewrite Hcall; apply at_throw; split; reflexivity.
  - intros sig Hsig Hmissing.
    enough (post_at
              (when (bool_decide (is_Some (signal args)))
                 (yield (stringify (item_started threadItem))) >>
               item_guard args item >>
               yield (stringify (item_completed threadItem)) >>
               ret {| updatedHistory :=
                        updatedHistory ls
                        ++ [{| role := assistant; text := item_text_of item |}];
                      assistantCount := S (assistantCount ls);
                      completed := completed ls; failed := failed ls |}) h None
              (fun o _ _ t => o = Threw (TypeError "undefined")
                              /\ yields t = [stringify (item_started threadItem)]))
      as HQ by exact HQ.
    unfold item_guard. rewrite Hsig, Hmissing.
    apply at_bind, at_yield; [discriminate|]. apply at_bind, at_throw.
    split; reflexivity.
  - intros Hnone.
    enough (post_at
              (when (bool_decide (is_Some (signal args)))
                 (yield (stringify (item_started threadItem))) >>
               item_guard args item >>
               yield (stringify (item_completed threadItem)) >>
               ret {| updatedHistory :=
                        updatedHistory ls
                        ++ [{| role := assistant; text := item_text_of item |}];
                      assistantCount := S (assistantCount ls);
                      completed := completed ls; failed := failed ls |}) h None
              (fun o _ _ t =>
                 (exists ls', o = Returned ls'
                              /\ assistantCount ls' = S (assistantCount ls))
                 /\ yields t = [stringify (item_completed threadItem)]))
      as HQ by exact HQ.
    unfold item_guard. rewrite Hnone.
    apply at_bind, at_ret. apply at_bind, at_ret.
    apply at_bind, at_yield; [discriminate|]. apply at_ret.
    split; [eexists; split; reflexivity | reflexivity].
Qed.

End GuardFacts.

(** X20. The request has a [config] section exactly when one of the seven
    options is set: a sandbox mode, a reasoning effort, the network-access
    or the web-search switch (also when switched off), an approval policy,
    a non-empty list of additional directories or a working directory. An
    empty [config] object is never sent. *)
Theorem config_is_sent_when_an_option_is_set history schema args :
  (body_config (request history schema args) = None <->
   given (sandboxMode args) = false
   /\ given (modelReasoningEffort args) = false
   /\ networkAccessEnabled args = None
   /\ webSearchEnabled args = None
   /\ given (approvalPolicy args) = false
   /\ (additionalDirectories args = None \/ additionalDirectories args = Some [])
   /\ given (workingDirectory args) = false)
  /\ body_config (request history schema args) <> Some [].
Proof.
  unfold request. cbn [body_config]. unfold request_config, config_string, config_nested, given.
  destruct (sandboxMode args) as [[|? ?]|], (modelReasoningEffort args) as [[|? ?]|],
    (networkAccessEnabled args), (webSearchEnabled args),
    (approvalPolicy args) as [[|? ?]|], (additionalDirectories args) as [[|? ?]|],
    (workingDirectory args) as [[|? ?]|];
    cbn [app]; (split; [split; [try discriminate; intros _; repeat split; auto
                              | intros (? & ? & ? & ? & ? & [?|?] & ?);
                                first [reflexivity | discriminate]]
                       | discriminate]).
Qed.

(** ** The further properties on example data *)

Section MoreExamples.
Import AsciiPlatform Scenario Cases.

Lemma dataLine_takes_the_first_data_line_witness :
  (LF ∉ js " {'type':'a'} ")
  /\ dataLine (u "data:" ++ js " {'type':'a'} ") = Some (js "{'type':'a'}")
  /\ dataLine (u "data:" ++ js " {'type':'a'} " ++ LF :: u "data: ignored")
     = Some (js "{'type':'a'}")
  /\ dataLine (u "event: message" ++ LF :: u "data:" ++ js " {'type':'a'} ")
     = Some (js "{'type':'a'}").
Proof.
  assert (LF ∉ js " {'type':'a'} ") as Hline.
  { intros Hin. vm_compute in Hin.
    repeat (apply elem_of_cons in Hin as [Hin|Hin]; [discriminate Hin|]).
    inversion Hin. }
  assert (LF ∉ u "event: message") as Hevent.
  { intros Hin. vm_compute in Hin.
    repeat (apply elem_of_cons in Hin as [Hin|Hin]; [discriminate Hin|]).
    inversion Hin. }
  destruct dataLine_takes_the_first_data_line as (Honly & Hfirst & Hskip & _).
  split; [exact Hline | split; [|split]].
  - rewrite (Honly _ Hline). vm_compute. reflexivity.
  - rewrite (Hfirst _ (u "data: ignored") Hline). vm_compute. reflexivity.
  - rewrite (Hskip _ _ Hevent eq_refl), (Honly _ Hline). vm_compute. reflexivity.
Defined.

Lemma abort_ends_the_decoding_witness :
  (forall i, (i < length hello)%nat -> aborted (fires_at 3) (2 + i) = false)
  /\ aborted (fires_at 3) (2 + length hello) = true
  /\ parseSse (map Chunk hello ++ [Chunk (sse [responseFailed "late"])])
       (Some (fires_at 3))
     = ([parsed (assistantMessage "Hi!"); parsed responseCompleted], Some (u "stop")).
Proof.
  assert (forall i, (i < length hello)%nat -> aborted (fires_at 3) (2 + i) = false)
    as Hbefore.
  { intros i Hi. cbn in Hi. destruct i as [|i]; [reflexivity | lia]. }
  split; [exact Hbefore | split; [reflexivity|]].
  rewrite (abort_ends_the_decoding (fires_at 3) hello _ Hbefore eq_refl).
  vm_compute. reflexivity.
Defined.

Lemma rejected_read_ends_the_decoding_witness :
  never_aborted None
  /\ parseSse (map Chunk hello ++ ReadRejected (u "terminated") :: []) None
     = ([parsed (assistantMessage "Hi!"); parsed responseCompleted],
        Some (u "terminated")).
Proof.
  assert (never_aborted None) as Hsig by (intros n; reflexivity).
  split; [exact Hsig|].
  rewrite (rejected_read_ends_the_decoding None hello (u "terminated") [] Hsig).
  vm_compute. reflexivity.
Defined.

Lemma unterminated_tail_is_dropped_witness :
  never_aborted None
  /\ parseSse (map Chunk unfinished) None = ([parsed (assistantMessage "Hi!")], None).
Proof.
  assert (never_aborted None) as Hsig by (intros n; reflexivity).
  split; [exact Hsig|].
  rewrite (unterminated_tail_is_dropped None unfinished
             (u "data: " ++ assistantMessage "Hi!" ++ [LF; LF])
             (u "data: " ++ responseCompleted ++ [LF])
             [u "data: " ++ assistantMessage "Hi!"] Hsig).
  - vm_compute. reflexivity.
  - vm_compute. reflexivity.
  - vm_compute. reflexivity.
  - vm_compute. reflexivity.
Defined.

Lemma http_turn_is_one_request_then_events_witness :
  given (baseUrl (remote None "Hello, world!")) = true
  /\ (trace (run exec (world (ok200 hello) child0) (remote None "Hello, world!") ∅ None) = []
      \/ exists req events,
           trace (run exec (world (ok200 hello) child0) (remote None "Hello, world!") ∅ None)
           = AFetch req :: map (fun e => AYield (stringify e)) events).
Proof.
  split; [reflexivity|].
  exact (http_turn_is_one_request_then_events exec (world (ok200 hello) child0)
           (remote None "Hello, world!") ∅ None eq_refl).
Defined.

Lemma no_item_started_without_signal_witness :
  signal (remote None "Hello, world!") = None
  /\ forall item,
       stringify (item_started item)
       ∉ yields (trace (runHttp (world (ok200 hello) child0)
                          (remote None "Hello, world!") ∅ None)).
Proof.
  split; [reflexivity|].
  exact (no_item_started_without_signal (world (ok200 hello) child0)
           (remote None "Hello, world!") ∅ None eq_refl).
Defined.

Lemma returned_turn_reports_its_end_witness :
  outcome (runHttp (world error500 child0) (remote None "Hello, world!") ∅ None)
  = Returned tt
  /\ exists y,
       y ∈ yields (trace (runHttp (world error500 child0)
                            (remote None "Hello, world!") ∅ None))
       /\ ((exists usage, y = stringify (turn_completed usage))
           \/ exists message, y = stringify (turn_failed message)).
Proof.
  assert (outcome (runHttp (world error500 child0) (remote None "Hello, world!") ∅ None)
          = Returned tt) as Hret by (vm_compute; reflexivity).
  split; [exact Hret|].
  exact (returned_turn_reports_its_end (world error500 child0)
           (remote None "Hello, world!") ∅ None Hret).
Defined.

Lemma history_is_append_only_witness :
  u "thread_other" <> resolve_thread (world (ok200 hello) child0) (remote (Some t1) "more")
  /\ store (run exec (world (ok200 hello) child0) (remote (Some t1) "more")
              store1 None) !! u "thread_other"
     = store1 !! u "thread_other".
Proof.
  assert (u "thread_other"
          <> resolve_thread (world (ok200 hello) child0) (remote (Some t1) "more"))
    as Hother by distinct.
  split; [exact Hother|].
  exact (proj2 (history_is_append_only exec (world (ok200 hello) child0)
                  (remote (Some t1) "more") store1 None) _ Hother).
Defined.

Lemma cancelled_before_the_request_witness :
  cancelled_on_entry (with_signal (fires_at 0) (remote None "Hello, world!")) = true
  /\ exists sig,
       signal (with_signal (fires_at 0) (remote None "Hello, world!")) = Some sig
       /\ outcome (runHttp (world (ok200 hello) child0)
                     (with_signal (fires_at 0) (remote None "Hello, world!")) store1 None)
          = Threw (abort_message sig)
       /\ trace (runHttp (world (ok200 hello) child0)
                   (with_signal (fires_at 0) (remote None "Hello, world!")) store1 None)
          = []
       /\ store (runHttp (world (ok200 hello) child0)
                   (with_signal (fires_at 0) (remote None "Hello, world!")) store1 None)
          = store1.
Proof.
  split; [reflexivity|].
  exact (cancelled_before_the_request (world (ok200 hello) child0)
           (with_signal (fires_at 0) (remote None "Hello, world!")) store1 None eq_refl).
Defined.


Lemma completed_items_are_numbered_witness :
  let turn := runHttp (world (ok200 two_items) child0) (remote None "go") ∅ None in
  outcome turn = Returned tt
  /\ has_completed (trace turn) = true
  /\ omap completed_item (yields (trace turn))
     = [{| item_id := u "item_0"; item_text := JStr (u "Let me look.") |};
        {| item_id := u "item_1"; item_text := JStr (u "Done.") |}].
Proof.
  cbv zeta.
  assert (outcome (runHttp (world (ok200 two_items) child0) (remote None "go") ∅ None)
          = Returned tt) as Hret by (vm_compute; reflexivity).
  assert (has_completed (trace (runHttp (world (ok200 two_items) child0)
                                  (remote None "go") ∅ None)) = true) as Hdone
    by (vm_compute; reflexivity).
  split; [exact Hret | split; [exact Hdone|]].
  rewrite (completed_items_are_numbered (world (ok200 two_items) child0)
             (remote None "go") ∅ Hret Hdone).
  vm_compute. reflexivity.
Defined.

Lemma turn_is_chunk_invariant_witness :
  streaming
  /\ never_aborted (signal (remote None "Hello, world!"))
  /\ runHttp (reframe one_chunk (world (ok200 cut_stream) child0))
       (remote None "Hello, world!") ∅ None
     = runHttp (world (ok200 cut_stream) child0) (remote None "Hello, world!") ∅ None.
Proof.
  assert (never_aborted (signal (remote None "Hello, world!"))) as Hsig
    by (intros n; reflexivity).
  split; [exact ascii_streaming | split; [exact Hsig|]].
  exact (turn_is_chunk_invariant (world (ok200 cut_stream) child0)
           (remote None "Hello, world!") ∅ None ascii_streaming Hsig).
Defined.

Lemma commandArgs_flags_witness :
  let args := with_files (u "s.json") [u "../backend"; u "/tmp/shared"] []
                (local (Some t1) "test additional dirs") in
  additionalDirectories args = Some [u "../backend"; u "/tmp/shared"]
  /\ u "/tmp/shared" ∈ [u "../backend"; u "/tmp/shared"]
  /\ exists pre post,
       commandArgs args = pre ++ [u "--add-dir"; u "/tmp/shared"] ++ post.
Proof.
  cbv zeta.
  assert (u "/tmp/shared" ∈ [u "../backend"; u "/tmp/shared"]) as Hin
    by (right; left).
  split; [reflexivity | split; [exact Hin|]].
  exact (proj1 (proj2 (commandArgs_flags
                         (with_files (u "s.json") [u "../backend"; u "/tmp/shared"] []
                            (local (Some t1) "test additional dirs"))))
           _ _ eq_refl Hin).
Defined.

Lemma buildEnv_lookup_witness :
  u "CUSTOM_VAR" <> INTERNAL_ORIGINATOR_ENV
  /\ u "CUSTOM_VAR" <> u "OPENAI_BASE_URL"
  /\ u "CUSTOM_VAR" <> u "CODEX_API_KEY"
  /\ buildEnv {| executablePath := u "codex";
                 envOverride := Some {[ u "CUSTOM_VAR" := u "custom" ]} |}
       (world error500 child0) (local None "custom env") !! u "CUSTOM_VAR"
     = Some (u "custom").
Proof.
  assert (u "CUSTOM_VAR" <> INTERNAL_ORIGINATOR_ENV) as N1 by distinct.
  assert (u "CUSTOM_VAR" <> u "OPENAI_BASE_URL") as N2 by distinct.
  assert (u "CUSTOM_VAR" <> u "CODEX_API_KEY") as N3 by distinct.
  split; [exact N1 | split; [exact N2 | split; [exact N3|]]].
  rewrite (proj2 (proj2 (proj2 (buildEnv_lookup
             {| executablePath := u "codex";
                envOverride := Some {[ u "CUSTOM_VAR" := u "custom" ]} |}
             (world error500 child0) (local None "custom env")))) _ N1 N2 N3).
  vm_compute. reflexivity.
Defined.

Lemma process_trace_is_a_prefix_witness :
  given (baseUrl (local None "hello")) = false
  /\ trace (run exec (world error500 child2) (local None "hello") ∅ (Some 2%nat))
       `prefix_of`
       ASpawn (u "codex") (commandArgs (local None "hello"))
         (buildEnv exec (world error500 child2) (local None "hello"))
       :: AWrite (u "hello")
       :: map (fun l => AYield (line l))
            (default [] (stdout child2)).
Proof.
  split; [reflexivity|].
  exact (process_trace_is_a_prefix exec (world error500 child2) (local None "hello")
           ∅ (Some 2%nat) eq_refl).
Defined.

Lemma process_failures_witness :
  given (baseUrl (local None "hello")) = false
  /\ untrusted (world error500 mute_child) (local None "hello") = false
  /\ (stdin mute_child = false
      /\ outcome (run exec (world error500 mute_child) (local None "hello") ∅ None)
         = Threw (u "Child process has no stdin"))
  /\ (stdinError broken_pipe = Some (1%nat, u "write EPIPE")
      /\ outcome (run exec (world error500 broken_pipe) (local None "hello") ∅ None)
         = Unsettled (Uncaught (u "write EPIPE"))
      /\ yields (trace (run exec (world error500 broken_pipe) (local None "hello") ∅ None))
         = [line (js "{'type':'thread.started','thread_id':'t'}")]).
Proof.
  split; [reflexivity | split; [reflexivity | split]].
  - split; [reflexivity|].
    exact (proj1 (proj1 (process_failures exec (world error500 mute_child)
                           (local None "hello") ∅ eq_refl eq_refl) eq_refl)).
  - split; [reflexivity|].
    exact (proj2 (proj2 (proj2 (process_failures exec (world error500 broken_pipe)
                                  (local None "hello") ∅ eq_refl eq_refl)))
             _ 1%nat (u "write EPIPE") eq_refl eq_refl eq_refl
             ltac:(cbn; lia)).
Defined.

Lemma findCodexPath_support_witness :
  ((process_platform linux_x64 = u "linux" \/ process_platform linux_x64 = u "android"
    \/ process_platform linux_x64 = u "darwin" \/ process_platform linux_x64 = u "win32")
   /\ (process_arch linux_x64 = u "x64" \/ process_arch linux_x64 = u "arm64"))
  /\ exists dir,
       findCodexPath linux_x64
       = inl (path_join dir (if str_eqb (process_platform linux_x64) (u "win32")
                             then u "codex.exe" else u "codex")).
Proof.
  assert ((process_platform linux_x64 = u "linux" \/ process_platform linux_x64 = u "android"
           \/ process_platform linux_x64 = u "darwin"
           \/ process_platform linux_x64 = u "win32")
          /\ (process_arch linux_x64 = u "x64" \/ process_arch linux_x64 = u "arm64"))
    as Hknown by (split; left; reflexivity).
  split; [exact Hknown|].
  exact (proj1 (findCodexPath_support linux_x64) Hknown).
Defined.

Lemma item_guard_needs_a_signal_witness :
  let args := with_signal (fires_at 99) (remote None "run it") in
  let ls := {| updatedHistory := []; assistantCount := 0;
               completed := false; failed := false |} in
  is_string "response.output_item.done" (prop "type" (Some (parsed functionCall))) = true
  /\ signal args = Some (fires_at 99)
  /\ is_string "function_call" (prop "type" (prop "item" (Some (parsed functionCall))))
     = true
  /\ outcome (handle args (parsed functionCall) ls ∅ None) = Threw (u "stop").
Proof.
  cbv zeta.
  assert (is_string "response.output_item.done"
            (prop "type" (Some (parsed functionCall))) = true) as Hitem
    by (vm_compute; reflexivity).
  assert (is_string "function_call"
            (prop "type" (prop "item" (Some (parsed functionCall)))) = true) as Hcall
    by (vm_compute; reflexivity).
  split; [exact Hitem | split; [reflexivity | split; [exact Hcall|]]].
  exact (proj1 (proj1 (item_guard_needs_a_signal
                         (with_signal (fires_at 99) (remote None "run it"))
                         (parsed functionCall) _ ∅ Hitem)
                  (fires_at 99) eq_refl Hcall)).
Defined.

Lemma config_is_sent_when_an_option_is_set_witness :
  (given (sandboxMode (remote None "plain")) = false
   /\ given (modelReasoningEffort (remote None "plain")) = false
   /\ networkAccessEnabled (remote None "plain") = None
   /\ webSearchEnabled (remote None "plain") = None
   /\ given (approvalPolicy (remote None "plain")) = false
   /\ (additionalDirectories (remote None "plain") = None
       \/ additionalDirectories (remote None "plain") = Some [])
   /\ given (workingDirectory (remote None "plain")) = false)
  /\ body_config (request [] None (remote None "plain")) = None.
Proof.
  assert (given (sandboxMode (remote None "plain")) = false
          /\ given (modelReasoningEffort (remote None "plain")) = false
          /\ networkAccessEnabled (remote None "plain") = None
          /\ webSearchEnabled (remote None "plain") = None
          /\ given (approvalPolicy (remote None "plain")) = false
          /\ (additionalDirectories (remote None "plain") = None
              \/ additionalDirectories (remote None "plain") = Some [])
          /\ given (workingDirectory (remote None "plain")) = false) as Hnone
    by (repeat split; try reflexivity; left; reflexivity).
  split; [exact Hnone|].
  exact (proj2 (proj1 (config_is_sent_when_an_option_is_set [] None
                         (remote None "plain"))) Hnone).
Defined.

End MoreExamples.

(** ** Turns that do not run to their end *)

Section Unfinished.
Context `{Platform}.

(** X21 — [this.histories.set] is the last statement of [runHttp], after the
    loop over the events: a run that does not return (it throws, or its
    consumer stops pulling, even right after the [turn.completed] event was
    handed over) leaves every history as it was. *)
Theorem unfinished_turn_commits_nothing this w args h p :
  outcome (run this w args h p) <> Returned tt ->
  store (run this w args h p) = h.
Proof.
  intros Hout. rewrite (post_run this w args h p).
  destruct (outcome (run this w args h p)) as [[]| | |?];
    [destruct Hout; reflexivity | ..];
    cbn [returned]; rewrite andb_false_r; reflexivity.
Qed.

End Unfinished.

Section UnfinishedExample.
Import AsciiPlatform Scenario Cases.

Lemma unfinished_turn_commits_nothing_witness :
  outcome (run exec (world (ok200 hello) child0) (remote (Some t1) "more")
             store1 (Some 4%nat)) <> Returned tt
  /\ has_completed (trace (run exec (world (ok200 hello) child0)
                             (remote (Some t1) "more") store1 (Some 4%nat))) = true
  /\ store (run exec (world (ok200 hello) child0) (remote (Some t1) "more")
              store1 (Some 4%nat)) = store1.
Proof.
  assert (outcome (run exec (world (ok200 hello) child0) (remote (Some t1) "more")
                     store1 (Some 4%nat)) <> Returned tt) as Hout
    by (vm_compute; discriminate).
  split; [exact Hout | split; [vm_compute; reflexivity|]].
  exact (unfinished_turn_commits_nothing exec (world (ok200 hello) child0)
           (remote (Some t1) "more") store1 (Some 4%nat) Hout).
Defined.

End UnfinishedExample.
